(** * srslte::inplace_task — a fixed-capacity, type-erased, move-only callable

    Shallow embedding of [lib/include/srslte/common/task.h].

    The header is a class template over a call signature [R(Args...)]; the
    embedding is parametric in [R] and [Args] in the same way.  Payload
    callables are described by their class (what [operator()], the move
    constructor and the destructor of the payload type do), the containers
    live in a store indexed by their address, and the three type-erased
    operations of a dispatch table are first-order function pointers whose
    meaning is given by [run_call], [run_move] and [run_dtor]. *)

From stdpp Require Import base option gmap.

(** ** Payload types *)

(** A class type usable as payload (a closure type, a functor struct). *)
Definition class_id := nat.

(** The template argument [T] deduced by the forwarding constructor
    [inplace_task(T&& function)] among the instantiations that build: for an
    rvalue argument [T] is the class itself, for a const rvalue it is the
    const-qualified class.  (For an lvalue [T] is a reference type and
    [get<T>] forms [Func*] with a reference [Func], which is rejected when the
    header is built.) *)
Inductive ty :=
| Plain (c : class_id)
| Const (c : class_id).

Definition class_of (T : ty) : class_id :=
  match T with Plain c | Const c => c end.

(** [std::decay<T>::type], the [FunT] of the constructor. *)
Definition decay (T : ty) : ty := Plain (class_of T).

#[global] Instance ty_eq_dec : EqDecision ty.
Proof. solve_decision. Defined.

#[global] Instance ty_countable : Countable ty :=
  inj_countable'
    (λ T, match T with Plain c => inl c | Const c => inr c end)
    (λ x, match x with inl c => Plain c | inr c => Const c end)
    (λ T, match T with Plain _ | Const _ => eq_refl end).

(** ** Exceptions and outcomes of a call *)

Inductive exn :=
| bad_function_call
| payload_exn (code : nat).

Inductive outcome (R : Type) :=
| Returns (r : R)
| Throws (e : exn).
Arguments Returns {R} r.
Arguments Throws {R} e.

(** What the payload type [T] does, seen through a [T*]:
    - [p_call]: [operator()] on an object of value [v], in the world [w]; it
      may return or throw, may change the object (a mutable closure) and the
      world;
    - [p_moved]: the value left in the source object by [T{std::move(src)}]
      (the new object receives the value of the source);
    - [p_dtor]: the effect of [~T()] on the world. *)
Record payload_class (V W Args R : Type) := {
  p_call : V → Args → W → outcome R * V * W;
  p_moved : V → V;
  p_dtor : V → W → W
}.
Arguments p_call {V W Args R} _ _ _ _.
Arguments p_moved {V W Args R} _ _.
Arguments p_dtor {V W Args R} _ _ _.

(** ** Storage *)

(** A live payload object: its class and its value. *)
Record object (V : Type) := { o_class : class_id; o_val : V }.
Arguments o_class {V} _.
Arguments o_val {V} _.

(** [std::aligned_storage<Capacity, Alignment>::type]: raw storage that holds
    one live object or none.  The two [static_assert]s of the constructor make
    every payload fit, so the bytes themselves are not modelled. *)
Definition storage_t (V : Type) := option (object V).

(** ** Dispatch tables *)

(** The function-local statics [t] of [get_empty] and of each [get<Func>]. *)
Inductive taddr :=
| empty_tbl
| func_tbl (T : ty).

#[global] Instance taddr_eq_dec : EqDecision taddr.
Proof. solve_decision. Defined.

#[global] Instance taddr_countable : Countable taddr :=
  inj_countable'
    (λ x, match x with empty_tbl => None | func_tbl T => Some T end)
    (λ o, match o with None => empty_tbl | Some T => func_tbl T end)
    (λ x, match x with empty_tbl | func_tbl _ => eq_refl end).

(** A value of type [oper_table_t*]: the address of a table, the null
    pointer, or the indeterminate value of a pointer that was never
    assigned. *)
Inductive tptr :=
| indeterminate
| nullptr
| table_at (x : taddr).

#[global] Instance tptr_eq_dec : EqDecision tptr.
Proof. solve_decision. Defined.

(** [call_oper_t], [move_oper_t], [dtor_oper_t]: a null pointer or one of the
    captureless lambdas assigned in [get_empty] or in [get<Func>]. *)
Inductive call_oper_t := call_null | call_empty | call_func (Func : ty).
Inductive move_oper_t := move_null | move_empty | move_func (Func : ty).
Inductive dtor_oper_t := dtor_null | dtor_empty | dtor_func (Func : ty).

Record oper_table_t := {
  call : call_oper_t;
  move : move_oper_t;
  dtor : dtor_oper_t
}.

(** A static [oper_table_t] before its members are assigned. *)
Definition zero_table : oper_table_t :=
  {| call := call_null; move := move_null; dtor := dtor_null |}.

(** ** Containers and program state *)

Definition addr := nat.

(** [void*] arguments of the table operations: the buffer of the container at
    an address, or the local [tmp] of [swap]. *)
Inductive vptr :=
| buf_of (a : addr)
| tmp_buf.

#[global] Instance vptr_eq_dec : EqDecision vptr.
Proof. solve_decision. Defined.

(** The two data members of [inplace_task]. *)
Record inplace_task (V : Type) := {
  buffer : storage_t V;
  oper_ptr : tptr
}.
Arguments buffer {V} _.
Arguments oper_ptr {V} _.

Record state (V W : Type) := {
  empty_oper : tptr;                    (* oper_table_t::empty_oper *)
  tables : gmap taddr oper_table_t;     (* statics constructed so far *)
  tasks : gmap addr (inplace_task V);   (* containers within their lifetime *)
  tmp : storage_t V;                    (* the local [tmp] of [swap] *)
  world : W                             (* what payloads act upon *)
}.
Arguments empty_oper {V W} _.
Arguments tables {V W} _.
Arguments tasks {V W} _.
Arguments tmp {V W} _.
Arguments world {V W} _.

(** Result of running a piece of code: normal completion, an exception in
    flight, or undefined behaviour. *)
Inductive res (S A : Type) :=
| Done (a : A) (s : S)
| Thrown (e : exn) (s : S)
| Undef.
Arguments Done {S A} a s.
Arguments Thrown {S A} e s.
Arguments Undef {S A}.

Section Model.
Context {V W Args R : Type}.
Variable cls : ty → payload_class V W Args R.

Abbreviation st := (state V W).

(** Code is a state transformer that may throw or go wrong. *)
Definition M (A : Type) : Type := st → res st A.

Definition ret {A} (a : A) : M A := λ s, Done a s.
Definition bind {A B} (m : M A) (k : A → M B) : M B :=
  λ s, match m s with
       | Done a s' => k a s'
       | Thrown e s' => Thrown e s'
       | Undef => Undef
       end.
Definition throw {A} (e : exn) : M A := λ s, Thrown e s.
Definition undef {A} : M A := λ _, Undef.

Notation "x <- m ;; k" := (bind m (λ x, k))
  (at level 100, m at next level, right associativity, only parsing).
Notation "m ;;; k" := (bind m (λ _, k))
  (at level 100, right associativity, only parsing).

(** *** State accessors *)

Definition set_empty_oper (p : tptr) (s : st) : st :=
  {| empty_oper := p; tables := tables s; tasks := tasks s;
     tmp := tmp s; world := world s |}.
Definition set_tables (m : gmap taddr oper_table_t) (s : st) : st :=
  {| empty_oper := empty_oper s; tables := m; tasks := tasks s;
     tmp := tmp s; world := world s |}.
Definition set_tasks (m : gmap addr (inplace_task V)) (s : st) : st :=
  {| empty_oper := empty_oper s; tables := tables s; tasks := m;
     tmp := tmp s; world := world s |}.
Definition set_tmp (x : storage_t V) (s : st) : st :=
  {| empty_oper := empty_oper s; tables := tables s; tasks := tasks s;
     tmp := x; world := world s |}.
Definition set_world (w : W) (s : st) : st :=
  {| empty_oper := empty_oper s; tables := tables s; tasks := tasks s;
     tmp := tmp s; world := w |}.

(** Reading and writing the storage a [void*] points to.  A pointer into a
    container outside its lifetime is dangling. *)
Definition load (p : vptr) : M (storage_t V) :=
  λ s, match p with
       | tmp_buf => Done (tmp s) s
       | buf_of a =>
           match tasks s !! a with
           | Some t => Done (buffer t) s
           | None => Undef
           end
       end.

Definition store (p : vptr) (x : storage_t V) : M unit :=
  λ s, match p with
       | tmp_buf => Done tt (set_tmp x s)
       | buf_of a =>
           match tasks s !! a with
           | Some t =>
               Done tt (set_tasks
                 (<[a := {| buffer := x; oper_ptr := oper_ptr t |}]> (tasks s)) s)
           | None => Undef
           end
       end.

Definition read_oper (a : addr) : M tptr :=
  λ s, match tasks s !! a with
       | Some t =>
           match oper_ptr t with
           | indeterminate => Undef
           | p => Done p s
           end
       | None => Undef
       end.

Definition write_oper (a : addr) (p : tptr) : M unit :=
  λ s, match tasks s !! a with
       | Some t =>
           Done tt (set_tasks
             (<[a := {| buffer := buffer t; oper_ptr := p |}]> (tasks s)) s)
       | None => Undef
       end.

(** [*p] for a table pointer. *)
Definition deref (p : tptr) : M oper_table_t :=
  λ s, match p with
       | table_at x =>
           match tables s !! x with
           | Some t => Done t s
           | None => Undef
           end
       | _ => Undef
       end.

(** The payload object a [static_cast<Func*>(src)] is used on: the storage
    must hold a live object of that class. *)
Definition live_at (Func : ty) (src : vptr) : M V :=
  x <- load src ;;
  match x with
  | Some o => if decide (o_class o = class_of Func) then ret (o_val o) else undef
  | None => undef
  end.

(** *** The lambdas of the dispatch tables *)

(** [t.call]. *)
Definition run_call (f : call_oper_t) (src : vptr) (args : Args) : M R :=
  match f with
  | call_null => undef
  | call_empty => throw bad_function_call
  | call_func Func =>
      v <- live_at Func src ;;
      λ s, let '(r, v', w') := p_call (cls Func) v args (world s) in
           match store src (Some {| o_class := class_of Func; o_val := v' |})
                       (set_world w' s) with
           | Done _ s' =>
               match r with
               | Returns x => Done x s'
               | Throws e => Thrown e s'
               end
           | _ => Undef
           end
  end.

(** [t.move]: for a payload, placement-new of [Func] at [dest] from the
    object at [src], then the destructor of the moved-from source. *)
Definition run_move (f : move_oper_t) (src dest : vptr) : M unit :=
  match f with
  | move_null => undef
  | move_empty => ret tt
  | move_func Func =>
      if decide (src = dest) then undef else
      v <- live_at Func src ;;
      store dest (Some {| o_class := class_of Func; o_val := v |}) ;;;
      store src (Some {| o_class := class_of Func; o_val := p_moved (cls Func) v |}) ;;;
      h <- live_at Func src ;;
      (λ s, Done tt (set_world (p_dtor (cls Func) h (world s)) s)) ;;;
      store src None
  end.

(** [t.dtor]. *)
Definition run_dtor (f : dtor_oper_t) (src : vptr) : M unit :=
  match f with
  | dtor_null => undef
  | dtor_empty => ret tt
  | dtor_func Func =>
      v <- live_at Func src ;;
      (λ s, Done tt (set_world (p_dtor (cls Func) v (world s)) s)) ;;;
      store src None
  end.

(** *** [oper_table_t::get_empty] and [oper_table_t::get<Func>] *)

(** The function-local static is constructed by the first call that reaches
    its declaration; every call (re)assigns the three members. *)
Definition static_table (x : taddr) (s : st) : oper_table_t :=
  default zero_table (tables s !! x).

Definition get_empty : M tptr :=
  λ s, let t := static_table empty_tbl s in
       let t := {| call := call_empty; move := move t; dtor := dtor t |} in
       let t := {| call := call t; move := move_empty; dtor := dtor t |} in
       let t := {| call := call t; move := move t; dtor := dtor_empty |} in
       Done (table_at empty_tbl) (set_tables (<[empty_tbl := t]> (tables s)) s).

Definition get (Func : ty) : M tptr :=
  λ s, let t := static_table (func_tbl Func) s in
       let t := {| call := call_func Func; move := move t; dtor := dtor t |} in
       let t := {| call := call t; move := move_func Func; dtor := dtor t |} in
       let t := {| call := call t; move := move t; dtor := dtor_func Func |} in
       Done (table_at (func_tbl Func)) (set_tables (<[func_tbl Func := t]> (tables s)) s).

(** The initialiser of the static member:
    [oper_table_t::empty_oper = oper_table_t::get_empty()]. *)
Definition static_init : M unit :=
  p <- get_empty ;; λ s, Done tt (set_empty_oper p s).

(** *** Members of [inplace_task] *)

(** Storage for a new container whose members are not yet assigned. *)
Definition alloc (this : addr) : M unit :=
  λ s, match tasks s !! this with
       | Some _ => Undef
       | None =>
           Done tt (set_tasks
             (<[this := {| buffer := None; oper_ptr := indeterminate |}]> (tasks s)) s)
       end.

(** The storage of a destroyed container is released. *)
Definition dealloc (this : addr) : M unit :=
  λ s, match tasks s !! this with
       | Some _ => Done tt (set_tasks (delete this (tasks s)) s)
       | None => Undef
       end.

Definition read_empty_oper : M tptr := λ s, Done (empty_oper s) s.

(** [inplace_task() noexcept]. *)
Definition default_ctor (this : addr) : M unit :=
  alloc this ;;;
  e <- read_empty_oper ;; write_oper this e.

(** [inplace_task(T&& function)]: the payload of value [v] is constructed in
    the buffer as a [FunT], and the table is the one of [T]. *)
Definition construct (this : addr) (T : ty) (v : V) : M unit :=
  alloc this ;;;
  store (buf_of this) (Some {| o_class := class_of (decay T); o_val := v |}) ;;;
  p <- get T ;; write_oper this p.

(** [inplace_task(inplace_task&& other) noexcept]. *)
Definition move_ctor (this other : addr) : M unit :=
  alloc this ;;;
  p <- read_oper other ;; write_oper this p ;;;
  e <- read_empty_oper ;; write_oper other e ;;;
  p <- read_oper this ;; t <- deref p ;;
  run_move (move t) (buf_of other) (buf_of this).

(** [~inplace_task()]. *)
Definition destroy (this : addr) : M unit :=
  p <- read_oper this ;; t <- deref p ;;
  run_dtor (dtor t) (buf_of this) ;;;
  dealloc this.

(** [inplace_task& operator=(inplace_task&& other) noexcept]. *)
Definition move_assign (this other : addr) : M unit :=
  p <- read_oper this ;; t <- deref p ;;
  run_dtor (dtor t) (buf_of this) ;;;
  p <- read_oper other ;; write_oper this p ;;;
  e <- read_empty_oper ;; write_oper other e ;;;
  p <- read_oper this ;; t <- deref p ;;
  run_move (move t) (buf_of other) (buf_of this).

(** [R operator()(Args&&... args)]. *)
Definition invoke (this : addr) (args : Args) : M R :=
  p <- read_oper this ;; t <- deref p ;;
  run_call (call t) (buf_of this) args.

(** [bool is_empty() const]. *)
Definition is_empty (this : addr) : M bool :=
  p <- read_oper this ;; e <- read_empty_oper ;;
  ret (bool_decide (p = e)).

(** [void swap(inplace_task& other) noexcept]. *)
Definition swap (this other : addr) : M unit :=
  if decide (this = other) then ret tt else
  store tmp_buf None ;;;
  p <- read_oper this ;; t <- deref p ;;
  run_move (move t) (buf_of this) tmp_buf ;;;
  q <- read_oper other ;; u <- deref q ;;
  run_move (move u) (buf_of other) (buf_of this) ;;;
  p <- read_oper this ;; t <- deref p ;;
  run_move (move t) tmp_buf (buf_of other) ;;;
  p <- read_oper this ;; q <- read_oper other ;;
  write_oper this q ;;; write_oper other p.


(** *** Client programs *)

(** The statements a client can run on containers named by their address. *)
Inductive op :=
| Default (this : addr)
| Construct (this : addr) (T : ty) (v : V)
| MoveCtor (this other : addr)
| MoveAssign (this other : addr)
| Swap (this other : addr)
| Invoke (this : addr) (args : Args)
| IsEmpty (this : addr)
| Destroy (this : addr).

Definition exec (o : op) : M unit :=
  match o with
  | Default a => default_ctor a
  | Construct a T v => construct a T v
  | MoveCtor a b => move_ctor a b
  | MoveAssign a b => move_assign a b
  | Swap a b => swap a b
  | Invoke a args => _ <- invoke a args ;; ret tt
  | IsEmpty a => _ <- is_empty a ;; ret tt
  | Destroy a => destroy a
  end.

Fixpoint run (l : list op) : M unit :=
  match l with
  | [] => ret tt
  | o :: l' => exec o ;;; run l'
  end.

(** Moves, swaps, assignments and the construction and destruction of
    containers: everything but the construction of a further payload and
    invocation. *)
Definition transfers (o : op) : bool :=
  match o with
  | Construct _ _ _ | Invoke _ _ => false
  | _ => true
  end.

(** *** Program start *)

(** Static storage is zero-initialised; no container exists. *)
Definition boot (w : W) : st :=
  {| empty_oper := nullptr; tables := ∅; tasks := ∅; tmp := None; world := w |}.

(** The state in which [main] starts: the static initialiser has run. *)
Definition startup (w : W) : st :=
  match static_init (boot w) with
  | Done _ s => s
  | _ => boot w
  end.

(** *** The slot/table consistency predicate *)

Definition empty_table : oper_table_t :=
  {| call := call_empty; move := move_empty; dtor := dtor_empty |}.

Definition func_table (Func : ty) : oper_table_t :=
  {| call := call_func Func; move := move_func Func; dtor := dtor_func Func |}.

(** The storage holds no live object. *)
Definition vacant (x : storage_t V) : Prop :=
  match x with None => True | Some _ => False end.

(** The storage holds one live object of class [c]. *)
Definition holds (c : class_id) (x : storage_t V) : Prop :=
  match x with None => False | Some o => o_class o = c end.

(** One container: its table pointer is not null and points to a constructed
    table; bound to the empty table its buffer is vacant, bound to the table
    of [Func] its buffer holds a live object of the class of [Func]. *)
Definition task_ok (s : st) (t : inplace_task V) : Prop :=
  match oper_ptr t with
  | indeterminate | nullptr => False
  | table_at empty_tbl => vacant (buffer t)
  | table_at (func_tbl Func) =>
      tables s !! func_tbl Func = Some (func_table Func) ∧
      holds (class_of Func) (buffer t)
  end.

Definition wf (s : st) : Prop :=
  empty_oper s = table_at empty_tbl ∧
  tables s !! empty_tbl = Some empty_table ∧
  vacant (tmp s) ∧
  map_Forall (λ _ t, task_ok s t) (tasks s).

(** *** What a client observes of a container *)

(** The container bound to the empty table, with nothing in its buffer. *)
Definition empty_task : inplace_task V :=
  {| buffer := None; oper_ptr := table_at empty_tbl |}.

(** The container holding a payload of value [v] bound to the table of [T]. *)
Definition full_task (T : ty) (v : V) : inplace_task V :=
  {| buffer := Some {| o_class := class_of T; o_val := v |};
     oper_ptr := table_at (func_tbl T) |}.

(** The effect on the world of destroying what a container holds through its
    own table. *)
Definition dtor_effect (t : inplace_task V) (w : W) : W :=
  match oper_ptr t, buffer t with
  | table_at (func_tbl Func), Some o => p_dtor (cls Func) (o_val o) w
  | _, _ => w
  end.

(** The effect on the world of relocating what a container holds through its
    own table: the destructor of the moved-from source. *)
Definition reloc_effect (t : inplace_task V) (w : W) : W :=
  match oper_ptr t, buffer t with
  | table_at (func_tbl Func), Some o =>
      p_dtor (cls Func) (p_moved (cls Func) (o_val o)) w
  | _, _ => w
  end.

(** Outcome, world and final content of the invoked container, as the caller
    of [operator()] sees them; [None] for undefined behaviour. *)
Definition observe (this : addr) (r : res st R)
  : option (outcome R * W * option (storage_t V)) :=
  match r with
  | Done x s => Some (Returns x, world s, buffer <$> tasks s !! this)
  | Thrown e s => Some (Throws e, world s, buffer <$> tasks s !! this)
  | Undef => None
  end.

(** Calling the payload object [f] of type [T] directly: [f(args)]. *)
Definition direct_call (T : ty) (v : V) (args : Args) (w : W)
  : option (outcome R * W * option (storage_t V)) :=
  let '(r, v', w') := p_call (cls T) v args w in
  Some (r, w', Some (Some {| o_class := class_of T; o_val := v' |})).

(** *** Client obligations *)

(** The containers a statement names are within their lifetime, and the one
    it declares is not yet. *)
Definition admissible (s : st) (o : op) : Prop :=
  match o with
  | Default a | Construct a _ _ => tasks s !! a = None
  | MoveCtor a b => tasks s !! a = None ∧ is_Some (tasks s !! b)
  | MoveAssign a b | Swap a b => is_Some (tasks s !! a) ∧ is_Some (tasks s !! b)
  | Invoke a _ | IsEmpty a | Destroy a => is_Some (tasks s !! a)
  end.

(** *** Tracking one payload *)

(** The destructor of the payload type [T] run on the moved-from source of a
    relocation of the payload of value [v]. *)
Definition husk_dtor (T : ty) (v : V) : W → W :=
  p_dtor (cls T) (p_moved (cls T) v).

(** The container at [a] is bound to the table of a payload type: the
    [move] called through its table pointer is the lambda that relocates. *)
Definition bound_to_payload (s : st) (a : addr) : bool :=
  match tasks s !! a with
  | Some t =>
      match oper_ptr t with
      | table_at (func_tbl _) => true
      | _ => false
      end
  | None => false
  end.

(** The number of relocations a statement performs in the state [s], that
    is, of calls of the [move] of a payload table: the move constructor and
    the move assignment call the [move] of the table the source was bound to
    once (after a self-assignment the table is the empty one); [swap] calls
    the [move] of the receiver's table twice and the [move] of the
    argument's table once. *)
Definition relocs_of (o : op) (s : st) : nat :=
  match o with
  | MoveCtor _ other => if bound_to_payload s other then 1 else 0
  | MoveAssign this other =>
      if decide (this = other) then 0
      else if bound_to_payload s other then 1 else 0
  | Swap this other =>
      if decide (this = other) then 0
      else (if bound_to_payload s this then 2 else 0)
           + (if bound_to_payload s other then 1 else 0)
  | _ => 0
  end.

(** The number of relocations a program performs from the state [s]. *)
Fixpoint relocations (l : list op) (s : st) : nat :=
  match l with
  | [] => 0
  | o :: l' =>
      relocs_of o s +
      match exec o s with
      | Done _ s' => relocations l' s'
      | _ => 0
      end
  end.

(** The payload [v] of type [T] is the only one in the program and has been
    relocated [n] times: either one container holds it and all others are
    empty, and the destructor has run on the [n] sources of the relocations;
    or no container holds anything and the destructor has run on these and
    then on the payload. *)
Definition sole_payload_at (T : ty) (v : V) (w0 : W) (n : nat) (s : st) : Prop :=
  wf s ∧
  (((∃ a, tasks s !! a = Some (full_task T v) ∧
          ∀ b t, b ≠ a → tasks s !! b = Some t → t = empty_task) ∧
    world s = Nat.iter n (husk_dtor T v) w0)
   ∨
   ((∀ b t, tasks s !! b = Some t → t = empty_task) ∧
    world s = p_dtor (cls T) v (Nat.iter n (husk_dtor T v) w0))).

(** *** Transfer of a payload between containers *)

(** What a client can tell after the content of [src] went to [dst] between
    the states [s] and [s']: [src] reports [is_empty]; invoking [dst] in any
    world gives what invoking [src] gave before; destroying [src] runs no
    destructor of a payload; and [src] can be assigned to again. *)
Definition transferred (src dst : addr) (s s' : st) : Prop :=
  wf s' ∧
  is_empty src s' = Done true s' ∧
  (∀ args w,
     observe dst (invoke dst args (set_world w s'))
     = observe src (invoke src args (set_world w s))) ∧
  destroy src s' = Done tt (set_tasks (delete src (tasks s')) s') ∧
  ∃ s'', move_assign src dst s' = Done tt s'' ∧
         tasks s'' !! src = tasks s' !! dst.

End Model.

(** ** Decidability of the consistency predicate *)

#[global] Instance call_oper_eq_dec : EqDecision call_oper_t.
Proof. solve_decision. Defined.

#[global] Instance move_oper_eq_dec : EqDecision move_oper_t.
Proof. solve_decision. Defined.

#[global] Instance dtor_oper_eq_dec : EqDecision dtor_oper_t.
Proof. solve_decision. Defined.

#[global] Instance oper_table_eq_dec : EqDecision oper_table_t.
Proof. solve_decision. Defined.

#[global] Instance vacant_dec {V} (x : storage_t V) : Decision (vacant x).
Proof. destruct x; simpl; apply _. Defined.

#[global] Instance holds_dec {V} c (x : storage_t V) : Decision (holds c x).
Proof. destruct x; simpl; apply _. Defined.

#[global] Instance task_ok_dec {V W} (s : state V W) t : Decision (task_ok s t).
Proof. unfold task_ok. destruct (oper_ptr t) as [| |[|Func]]; apply _. Defined.

#[global] Instance wf_dec {V W} (s : state V W) : Decision (wf s).
Proof. unfold wf. apply _. Defined.

(** ** Example payloads *)

(** What the example payloads write to the world. *)
Inductive event :=
| ev_call (c : class_id) (x : nat)
| ev_dtor (c : class_id) (x : nat).

(** Closures [[x]() { return x * 2; }] whose calls and destructor runs are
    logged; moving such a closure leaves the captured number in place. *)
Definition closure_cls (T : ty) : payload_class nat (list event) unit nat :=
  {| p_call := λ x _ w, (Returns (x * 2), x, w ++ [ev_call (class_of T) x]);
     p_moved := λ x, x;
     p_dtor := λ x w, w ++ [ev_dtor (class_of T) x] |}.

(** Closures [[x]() { return x; }]. *)
Definition const_cls (T : ty) : payload_class nat (list event) unit nat :=
  {| p_call := λ x _ w, (Returns x, x, w);
     p_moved := λ x, x;
     p_dtor := λ x w, w ++ [ev_dtor (class_of T) x] |}.

(** A payload whose destructor increments a counter, the world; its value
    tells whether the object still owns what it was constructed with.
    Through the table of the class itself a relocation moves, and the source
    no longer owns; through the table of the const-qualified class
    [std::move] yields a const rvalue, the relocation copies, and the source
    is left as it was. *)
Definition counting_cls (T : ty) : payload_class bool nat unit unit :=
  {| p_call := λ b _ w, (Returns tt, b, w);
     p_moved := λ b, match T with Plain _ => false | Const _ => b end;
     p_dtor := λ _ w, S w |}.

(** The same payload with a destructor that counts owning objects only. *)
Definition guard_cls (T : ty) : payload_class bool nat unit unit :=
  {| p_call := λ b _ w, (Returns tt, b, w);
     p_moved := λ b, match T with Plain _ => false | Const _ => b end;
     p_dtor := λ b w, if b then S w else w |}.

(** The state a program ends in when run from program start in the world
    [w] (the start state itself if it goes wrong). *)
Definition final {V W Args R} (cls : ty → payload_class V W Args R)
    (l : list op) (w : W) : state V W :=
  match run cls l (startup w) with
  | Done _ s | Thrown _ s => s
  | Undef => startup w
  end.

(** Construct [A] from a payload; move [A] into [B]; destroy [A]; destroy [B]. *)
Definition scenario_move_destroy : list (@op bool unit) :=
  [Construct 0 (Plain 0) true; MoveCtor 1 0; Destroy 0; Destroy 1].

(** [A] at address 0 holds a closure returning 1, [B] at address 1 one
    returning 2, and the container at address 2 is empty. *)
Definition two_closures : state nat (list event) :=
  final const_cls [Construct 0 (Plain 1) 1; Construct 1 (Plain 2) 2; Default 2] [].

(** The container at address 0 holds the closure capturing 5, the one at
    address 2 the closure capturing 7 of another class, the one at address 3
    is empty. *)
Definition doubling_closures : state nat (list event) :=
  final closure_cls [Construct 0 (Plain 0) 5; Construct 2 (Plain 1) 7; Default 3] [].

(** ** Further notions about programs and tables *)

Section Further.
Context {V W Args R : Type}.
Variable cls : ty → payload_class V W Args R.

(** The containers a statement names. *)
Definition names (o : @op V Args) : list addr :=
  match o with
  | Default a | Construct a _ _ | Invoke a _ | IsEmpty a | Destroy a => [a]
  | MoveCtor a b | MoveAssign a b | Swap a b => [a; b]
  end.

(** Every statement of the program is admissible in the state in which it
    is reached. *)
Fixpoint safe_run (l : list op) (s : state V W) : Prop :=
  match l with
  | [] => True
  | o :: l' =>
      admissible s o ∧
      match exec cls o s with
      | Done _ s' => safe_run l' s'
      | _ => True
      end
  end.

(** What [get_empty] and [get<Func>] assign to the members of their static. *)
Definition table_of (x : taddr) : oper_table_t :=
  match x with
  | empty_tbl => empty_table
  | func_tbl Func => func_table Func
  end.

(** Every table constructed so far has the members its function assigns. *)
Definition tables_ok (s : state V W) : Prop :=
  map_Forall (λ x t, t = table_of x) (tables s).

(** Calling a payload object of type [T] and value [v] directly with each of
    the arguments [xs] in turn, until a call throws: the outcome, the value
    of the object and the world at the end. *)
Fixpoint calls (T : ty) (v : V) (xs : list Args) (w : W)
  : outcome unit * V * W :=
  match xs with
  | [] => (Returns tt, v, w)
  | x :: xs' =>
      let '(r, v', w') := p_call (cls T) v x w in
      match r with
      | Returns _ => calls T v' xs' w'
      | Throws e => (Throws e, v', w')
      end
  end.

(** A piece of code relates the state it starts in to the state it ends in,
    normally or by an exception, by [P]. *)
Definition preserves {A} (P : state V W → state V W → Prop) (m : M A) : Prop :=
  ∀ s, match m s with
       | Done _ s' | Thrown _ s' => P s s'
       | Undef => True
       end.

(** The storage a [void*] points to belongs to a container that satisfies
    [allowed], or is the local [tmp] of [swap]. *)
Definition allowed_ptr (allowed : addr → Prop) (p : vptr) : Prop :=
  match p with
  | buf_of a => allowed a
  | tmp_buf => True
  end.

(** The constructed tables are kept as they are, and tables constructed
    since have the members their function assigns. *)
Definition tables_kept (s s' : state V W) : Prop :=
  tables_ok s → tables_ok s' ∧ tables s ⊆ tables s'.

(** The container at [c] (or its absence) and [empty_oper] are as before. *)
Definition untouched (c : addr) (s s' : state V W) : Prop :=
  tasks s' !! c = tasks s !! c ∧ empty_oper s' = empty_oper s.

End Further.

(** * Proofs *)

(** ** Running the model symbolically *)

Ltac mstep :=
  first
  [ rewrite lookup_insert_eq
  | rewrite lookup_insert_ne by congruence
  | rewrite lookup_delete_eq
  | rewrite lookup_delete_ne by congruence
  | rewrite decide_True by congruence
  | rewrite decide_False by congruence
  | rewrite bool_decide_eq_true_2 by congruence
  | rewrite bool_decide_eq_false_2 by congruence
  | match goal with H : _ !! _ = _ |- _ => rewrite H end
  | progress cbn ].

Ltac munfold :=
  unfold exec, destroy, default_ctor, construct, move_ctor, move_assign,
    invoke, is_empty, swap, static_init, get, get_empty, static_table,
    run_call, run_move, run_dtor, live_at, alloc, dealloc,
    read_oper, write_oper, read_empty_oper, deref, load, store,
    bind, ret, throw, undef,
    set_tasks, set_world, set_tmp, set_tables, set_empty_oper.

Ltac mrun := munfold; repeat mstep.

Ltac map_norm :=
  apply map_eq; intros ?i;
  repeat (first [ rewrite lookup_insert | rewrite lookup_delete ]; repeat case_decide);
  subst; try congruence; try done.

Ltac same_state := do 2 f_equal; try map_norm.

Ltac open_state s Hwf :=
  let He := fresh "He" in let Het := fresh "Het" in
  let Htmp := fresh "Htmp" in let Hall := fresh "Hall" in
  destruct Hwf as (He & Het & Htmp & Hall);
  destruct s as [eo tb tk tp w]; simpl in *;
  destruct tp; [done|]; subst eo.

Section Proofs.
Context {V W Args R : Type}.
Variable cls : ty → payload_class V W Args R.
Implicit Types (s : state V W) (t : inplace_task V) (a b : addr) (T : ty).

(** ** Reading the consistency predicate *)

(** A consistent container is empty, or holds a payload under the table of
    its type. *)
Lemma wf_task s a t :
  wf s → tasks s !! a = Some t →
  t = empty_task ∨
  ∃ T v, t = full_task T v ∧ tables s !! func_tbl T = Some (func_table T).
Proof.
  intros (_ & _ & _ & Hall) Ha. specialize (Hall a t Ha).
  unfold task_ok in Hall. destruct t as [bf [| |[|T]]]; simpl in *; try done.
  - left. destruct bf; [done|reflexivity].
  - right. destruct Hall as [Ht Hh]. destruct bf as [[c v]|]; [|done].
    simpl in Hh. subst c. by exists T, v.
Qed.

Lemma task_ok_empty s : task_ok s empty_task.
Proof. exact I. Qed.

Lemma task_ok_full s T v :
  tables s !! func_tbl T = Some (func_table T) → task_ok s (full_task T v).
Proof. intros H. split; [exact H|reflexivity]. Qed.

(** Consistency only depends on the tables and on the containers. *)
Lemma wf_update s m w :
  wf s → map_Forall (λ _ t, task_ok s t) m →
  wf (set_world w (set_tasks m s)).
Proof. intros (He & Het & Htmp & _) Hm. by repeat split. Qed.

Lemma wf_startup (w : W) : wf (startup (V:=V) w).
Proof.
  unfold startup, static_init, bind, get_empty, static_table, boot; simpl.
  repeat split; simpl. apply map_Forall_empty.
Qed.

(** ** What each member function does on a consistent state *)

Lemma default_ctor_spec s a :
  wf s → tasks s !! a = None →
  default_ctor a s = Done tt (set_tasks (<[a := empty_task]> (tasks s)) s).
Proof.
  intros Hwf Ha. open_state s Hwf. mrun. same_state.
Qed.

Lemma construct_spec s a T v :
  tasks s !! a = None →
  construct a T v s =
    Done tt (set_tasks (<[a := full_task T v]> (tasks s))
            (set_tables (<[func_tbl T := func_table T]> (tables s)) s)).
Proof.
  intros Ha. destruct s as [eo tb tk tp w]; simpl in *. mrun. same_state.
Qed.

Lemma move_ctor_spec s a b t :
  wf s → tasks s !! a = None → tasks s !! b = Some t →
  move_ctor cls a b s =
    Done tt (set_world (reloc_effect cls t (world s))
            (set_tasks (<[a := t]> (<[b := empty_task]> (tasks s))) s)).
Proof.
  intros Hwf Ha Hb. assert (a ≠ b) by congruence.
  destruct (wf_task s b t Hwf Hb) as [->|(T & v & -> & HT)];
    open_state s Hwf; mrun; same_state.
Qed.

Lemma destroy_spec s a t :
  wf s → tasks s !! a = Some t →
  destroy cls a s =
    Done tt (set_world (dtor_effect cls t (world s))
            (set_tasks (delete a (tasks s)) s)).
Proof.
  intros Hwf Ha. destruct (wf_task s a t Hwf Ha) as [->|(T & v & -> & HT)];
    open_state s Hwf; mrun; same_state.
Qed.

Lemma move_assign_spec s a b ta tb :
  wf s → a ≠ b → tasks s !! a = Some ta → tasks s !! b = Some tb →
  move_assign cls a b s =
    Done tt (set_world (reloc_effect cls tb (dtor_effect cls ta (world s)))
            (set_tasks (<[a := tb]> (<[b := empty_task]> (tasks s))) s)).
Proof.
  intros Hwf Hne Ha Hb.
  destruct (wf_task s a ta Hwf Ha) as [->|(T & v & -> & HT)];
  destruct (wf_task s b tb Hwf Hb) as [->|(T' & v' & -> & HT')];
    open_state s Hwf; mrun; same_state.
Qed.

Lemma move_assign_self_spec s a t :
  wf s → tasks s !! a = Some t →
  move_assign cls a a s =
    Done tt (set_world (dtor_effect cls t (world s))
            (set_tasks (<[a := empty_task]> (tasks s)) s)).
Proof.
  intros Hwf Ha.
  destruct (wf_task s a t Hwf Ha) as [->|(T & v & -> & HT)];
    open_state s Hwf; mrun; same_state.
Qed.

Lemma swap_spec s a b ta tb :
  wf s → a ≠ b → tasks s !! a = Some ta → tasks s !! b = Some tb →
  swap cls a b s =
    Done tt (set_world
               (reloc_effect cls ta (reloc_effect cls tb
                  (reloc_effect cls ta (world s))))
            (set_tasks (<[a := tb]> (<[b := ta]> (tasks s))) s)).
Proof.
  intros Hwf Hne Ha Hb.
  destruct (wf_task s a ta Hwf Ha) as [->|(T & v & -> & HT)];
  destruct (wf_task s b tb Hwf Hb) as [->|(T' & v' & -> & HT')];
    open_state s Hwf; mrun; same_state.
Qed.

Lemma swap_self_spec s a : swap cls a a s = Done tt s.
Proof. unfold swap. by rewrite decide_True. Qed.

Lemma is_empty_spec s a t :
  wf s → tasks s !! a = Some t →
  is_empty a s = Done (bool_decide (oper_ptr t = table_at empty_tbl)) s.
Proof.
  intros Hwf Ha.
  destruct (wf_task s a t Hwf Ha) as [->|(T & v & -> & _)];
    destruct Hwf as (He & _);
    unfold is_empty, bind, read_oper, read_empty_oper, ret;
    rewrite Ha; simpl; by rewrite He.
Qed.

Lemma invoke_empty_spec s a args :
  wf s → tasks s !! a = Some empty_task →
  invoke cls a args s = Thrown bad_function_call s.
Proof.
  intros Hwf Ha. open_state s Hwf. mrun. done.
Qed.

(** The state left by a call of the payload held at [a]. *)
Lemma invoke_full_spec s a T v args :
  tables s !! func_tbl T = Some (func_table T) →
  tasks s !! a = Some (full_task T v) →
  invoke cls a args s =
    let '(r, v', w') := p_call (cls T) v args (world s) in
    let s' := set_world w' (set_tasks (<[a := full_task T v']> (tasks s)) s) in
    match r with Returns x => Done x s' | Throws e => Thrown e s' end.
Proof.
  intros HT Ha. destruct s as [eo tb tk tp w]; simpl in *. mrun.
  destruct (p_call (cls T) v args w) as [[r v'] w']. mrun.
  destruct r; same_state.
Qed.
End Proofs.

Section Preservation.
Context {V W Args R : Type}.
Variable cls : ty → payload_class V W Args R.
Implicit Types (s : state V W) (t : inplace_task V) (a b : addr) (T : ty).

(** ** Preservation of consistency *)

Lemma wf_lookup s a t : wf s → tasks s !! a = Some t → task_ok s t.
Proof. intros (_ & _ & _ & Hall) Ha. exact (Hall a t Ha). Qed.

Lemma wf_tasks s : wf s → map_Forall (λ _ t, task_ok s t) (tasks s).
Proof. by intros (_ & _ & _ & Hall). Qed.

Lemma wf_update_tasks s m :
  wf s → map_Forall (λ _ t, task_ok s t) m → wf (set_tasks m s).
Proof. intros (He & Het & Htmp & _) Hm. by repeat split. Qed.

(** Constructing the table of [T] leaves every container consistent. *)
Lemma wf_get s T :
  wf s → wf (set_tables (<[func_tbl T := func_table T]> (tables s)) s).
Proof.
  intros (He & Het & Htmp & Hall). repeat split; simpl; try done.
  - by rewrite lookup_insert_ne.
  - intros a t Ha. specialize (Hall a t Ha). unfold task_ok in *.
    destruct (oper_ptr t) as [| |[|Func]]; simpl in *; try done.
    destruct Hall as [Ht Hh]. split; [|done].
    rewrite lookup_insert. case_decide; [|done]. by simplify_eq.
Qed.

Lemma exec_wf s (o : op) :
  wf s →
  match exec cls o s with
  | Done _ s' | Thrown _ s' => wf s'
  | Undef => True
  end.
Proof.
  intros Hwf. pose proof (wf_tasks s Hwf) as Hall.
  destruct o as [a|a T v|a b|a b|a b|a args|a|a]; simpl.
  - destruct (tasks s !! a) eqn:Ha.
    + unfold default_ctor, bind, alloc. by rewrite Ha.
    + rewrite default_ctor_spec by done.
      apply wf_update_tasks; [done|].
      apply map_Forall_insert_2; [exact I|done].
  - destruct (tasks s !! a) eqn:Ha.
    + unfold construct, bind, alloc. by rewrite Ha.
    + rewrite construct_spec by done. apply (wf_get s T) in Hwf.
      apply wf_update_tasks; [done|].
      apply map_Forall_insert_2.
      * apply task_ok_full. simpl. apply lookup_insert_eq.
      * by destruct Hwf as (_ & _ & _ & ?).
  - destruct (tasks s !! a) eqn:Ha.
    { unfold move_ctor, bind, alloc. by rewrite Ha. }
    destruct (tasks s !! b) as [t|] eqn:Hb.
    + rewrite (move_ctor_spec cls s a b t) by done.
      apply wf_update; [done|].
      apply map_Forall_insert_2; [by eapply wf_lookup|].
      apply map_Forall_insert_2; [exact I|done].
    + destruct (decide (a = b)) as [->|Hne]; open_state s Hwf; mrun; done.
  - destruct (tasks s !! a) as [ta|] eqn:Ha.
    2:{ unfold move_assign, bind, read_oper. by rewrite Ha. }
    destruct (decide (a = b)) as [<-|Hne].
    { rewrite (move_assign_self_spec cls s a ta) by done.
      apply wf_update; [done|]. apply map_Forall_insert_2; [exact I|done]. }
    destruct (tasks s !! b) as [tb|] eqn:Hb.
    + rewrite (move_assign_spec cls s a b ta tb) by done.
      apply wf_update; [done|].
      apply map_Forall_insert_2; [by eapply wf_lookup|].
      apply map_Forall_insert_2; [exact I|done].
    + destruct (wf_task s a ta Hwf Ha) as [->|(T & v & -> & HT)];
        open_state s Hwf; mrun; done.
  - destruct (decide (a = b)) as [<-|Hne].
    { by rewrite swap_self_spec. }
    destruct (tasks s !! a) as [ta|] eqn:Ha.
    2:{ unfold swap. rewrite decide_False by done.
        unfold bind, store, read_oper; simpl. by rewrite Ha. }
    destruct (tasks s !! b) as [tb|] eqn:Hb.
    + rewrite (swap_spec cls s a b ta tb) by done.
      apply wf_update; [done|].
      apply map_Forall_insert_2; [by eapply wf_lookup|].
      apply map_Forall_insert_2; [by eapply wf_lookup|done].
    + destruct (wf_task s a ta Hwf Ha) as [->|(T & v & -> & HT)];
        open_state s Hwf; mrun; done.
  - destruct (tasks s !! a) as [ta|] eqn:Ha.
    2:{ unfold invoke, bind, read_oper. by rewrite Ha. }
    unfold bind.
    destruct (wf_task s a ta Hwf Ha) as [->|(T & v & -> & HT)].
    + by rewrite invoke_empty_spec.
    + rewrite (invoke_full_spec cls s a T v) by done.
      destruct (p_call (cls T) v args (world s)) as [[r v'] w'].
      assert (wf (set_world w' (set_tasks (<[a:=full_task T v']> (tasks s)) s))).
      { apply wf_update; [done|].
        apply map_Forall_insert_2; [by apply task_ok_full|done]. }
      by destruct r.
  - destruct (tasks s !! a) as [ta|] eqn:Ha.
    2:{ unfold is_empty, bind, read_oper. by rewrite Ha. }
    unfold bind. by rewrite (is_empty_spec s a ta).
  - destruct (tasks s !! a) as [ta|] eqn:Ha.
    2:{ unfold destroy, bind, read_oper. by rewrite Ha. }
    rewrite (destroy_spec cls s a ta) by done.
    apply wf_update; [done|]. by apply map_Forall_delete.
Qed.

End Preservation.

Section Claims.
Context {V W Args R : Type}.
Variable cls : ty → payload_class V W Args R.
Implicit Types (s : state V W) (t : inplace_task V) (a b : addr) (T : ty).


(** A container that reports [is_empty] is bound to the empty table and has
    nothing in its buffer. *)
Lemma is_empty_true_inv s s' a :
  wf s → is_empty a s = Done true s' → tasks s !! a = Some empty_task.
Proof.
  intros Hwf He. destruct (tasks s !! a) as [t|] eqn:Ha.
  - rewrite (is_empty_spec s a t) in He by done.
    destruct (wf_task s a t Hwf Ha) as [->|(T & v & -> & _)]; [done|].
    by rewrite bool_decide_eq_false_2 in He.
  - unfold is_empty, bind, read_oper in He. by rewrite Ha in He.
Qed.

(** Every statement on live containers completes; only invocation can end
    in an exception: [bad_function_call] from the empty table with the state
    untouched, or what the payload itself throws. *)
Lemma exec_total s (o : op) :
  wf s → admissible s o →
  (∃ s', exec cls o s = Done tt s') ∨
  (∃ a args e s', o = Invoke a args ∧ exec cls o s = Thrown e s' ∧
     ((tasks s !! a = Some empty_task ∧ e = bad_function_call ∧ s' = s) ∨
      (∃ T v, tasks s !! a = Some (full_task T v) ∧
              (p_call (cls T) v args (world s)).1.1 = Throws e))).
Proof.
  intros Hwf Hadm.
  destruct o as [a|a T v|a b|a b|a b|a args|a|a]; simpl in *.
  - left. eexists. by apply default_ctor_spec.
  - left. eexists. by apply construct_spec.
  - destruct Hadm as [Ha [t Hb]]. left. eexists. by apply move_ctor_spec.
  - destruct Hadm as [[ta Ha] [tb Hb]]. left.
    destruct (decide (a = b)) as [<-|Hne]; eexists.
    + eapply move_assign_self_spec; eauto.
    + eapply move_assign_spec; eauto.
  - destruct Hadm as [[ta Ha] [tb Hb]]. left.
    destruct (decide (a = b)) as [<-|Hne]; eexists.
    + apply swap_self_spec.
    + eapply swap_spec; eauto.
  - destruct Hadm as [t Ha]. unfold bind.
    destruct (wf_task s a t Hwf Ha) as [->|(T & v & -> & HT)].
    + right. exists a, args, bad_function_call, s.
      rewrite invoke_empty_spec by done. split; [done|]. split; [done|]. by left.
    + rewrite (invoke_full_spec cls s a T v) by done.
      destruct (p_call (cls T) v args (world s)) as [[[r|e] v'] w'] eqn:Hc.
      * left. by eexists.
      * right. do 4 eexists. split; [done|]. split; [done|]. right.
        exists T, v. by rewrite Hc.
  - destruct Hadm as [t Ha]. left. unfold bind.
    rewrite (is_empty_spec s a t) by done. by eexists.
  - destruct Hadm as [t Ha]. left. eexists. by apply destroy_spec.
Qed.

(** ** Identity of invocation *)

(** C1. For every payload [f] of type [T] and value [v], constructing a
    container from [f] at an unused address and invoking it with [args] gives
    what [f(args)] gives: the same returned value or exception, the same
    world afterwards, and the same new value of the callable. *)
Theorem invoke_identity s a T (v : V) (args : Args) :
  tasks s !! a = None →
  observe a (bind (construct a T v) (λ _, invoke cls a args) s)
  = direct_call cls T v args (world s).
Proof.
  intros Ha. unfold bind. rewrite construct_spec by done.
  rewrite (invoke_full_spec cls _ a T v); simpl.
  - unfold direct_call.
    destruct (p_call (cls T) v args (world s)) as [[[r|e] v'] w']; simpl;
      by rewrite lookup_insert_eq.
  - apply lookup_insert_eq.
  - apply lookup_insert_eq.
Qed.

(** ** Invoking an empty container *)

(** X13. From a consistent state (the initialiser of [empty_oper] has
    run): a default-constructed container reports [is_empty]; invoking any
    container that reports [is_empty], a default-constructed one, the source
    of a move construction or of a move assignment among them, throws
    [bad_function_call] to the caller; and no other statement on live
    containers throws, while an invocation of a populated container throws
    only what its payload throws. *)
Theorem empty_invocation_fails s a (o : op) (args : Args) :
  wf s → tasks s !! a = None → admissible s o →
  (∃ s1, default_ctor a s = Done tt s1 ∧ is_empty a s1 = Done true s1 ∧
         invoke cls a args s1 = Thrown bad_function_call s1) ∧
  (∀ b, is_empty b s = Done true s →
        invoke cls b args s = Thrown bad_function_call s) ∧
  (∀ b t, tasks s !! b = Some t →
     ∃ s1, move_ctor cls a b s = Done tt s1 ∧ is_empty b s1 = Done true s1 ∧
           invoke cls b args s1 = Thrown bad_function_call s1) ∧
  (∀ b c t t', b ≠ c → tasks s !! b = Some t → tasks s !! c = Some t' →
     ∃ s1, move_assign cls c b s = Done tt s1 ∧ is_empty b s1 = Done true s1 ∧
           invoke cls b args s1 = Thrown bad_function_call s1) ∧
  ((∃ s', exec cls o s = Done tt s') ∨
   (∃ b args' e s', o = Invoke b args' ∧ exec cls o s = Thrown e s' ∧
     ((tasks s !! b = Some empty_task ∧ e = bad_function_call ∧ s' = s) ∨
      (∃ T v, tasks s !! b = Some (full_task T v) ∧
              (p_call (cls T) v args' (world s)).1.1 = Throws e)))).
Proof.
  intros Hwf Ha Hadm. repeat split.
  - pose proof (exec_wf cls s (Default a) Hwf) as Hwf'. simpl in Hwf'.
    rewrite default_ctor_spec in Hwf' |- * by done.
    eexists. split; [done|]. split.
    + by rewrite (is_empty_spec _ a empty_task) by (done || apply lookup_insert_eq).
    + apply invoke_empty_spec; [done|apply lookup_insert_eq].
  - intros b Hb. apply invoke_empty_spec; [done|by eapply is_empty_true_inv].
  - intros b t Hb.
    pose proof (exec_wf cls s (MoveCtor a b) Hwf) as Hwf'. simpl in Hwf'.
    assert (a ≠ b) by congruence.
    rewrite (move_ctor_spec cls s a b t) in Hwf' |- * by done.
    assert (tasks (set_world (reloc_effect cls t (world s))
              (set_tasks (<[a:=t]> (<[b:=empty_task]> (tasks s))) s)) !! b
            = Some empty_task) as Hb'.
    { simpl. by rewrite lookup_insert_ne, lookup_insert_eq. }
    eexists. split; [done|]. split.
    + by rewrite (is_empty_spec _ b empty_task).
    + by apply invoke_empty_spec.
  - intros b c t t' Hne Hb Hc.
    pose proof (exec_wf cls s (MoveAssign c b) Hwf) as Hwf'. simpl in Hwf'.
    rewrite (move_assign_spec cls s c b t' t) in Hwf' |- * by done.
    assert (tasks (set_world (reloc_effect cls t (dtor_effect cls t' (world s)))
              (set_tasks (<[c:=t]> (<[b:=empty_task]> (tasks s))) s)) !! b
            = Some empty_task) as Hb'.
    { simpl. by rewrite lookup_insert_ne, lookup_insert_eq. }
    eexists. split; [done|]. split.
    + by rewrite (is_empty_spec _ b empty_task).
    + by apply invoke_empty_spec.
  - by apply exec_total.
Qed.

(** ** Failed invocation leaves the container as it was *)

(** C10. Invoking a container that reports [is_empty] throws with the state
    in which it was invoked: the container is still bound to the empty table
    with an untouched buffer, and it can then be destroyed (no destructor of
    a payload runs), be the destination of a move assignment, or be the
    source of a move construction. *)
Theorem failed_invocation_atomic s a (args : Args) :
  wf s → is_empty a s = Done true s →
  invoke cls a args s = Thrown bad_function_call s ∧
  tasks s !! a = Some empty_task ∧
  destroy cls a s = Done tt (set_tasks (delete a (tasks s)) s) ∧
  (∀ b tb, b ≠ a → tasks s !! b = Some tb →
     move_assign cls a b s =
       Done tt (set_world (reloc_effect cls tb (world s))
               (set_tasks (<[a := tb]> (<[b := empty_task]> (tasks s))) s))) ∧
  (∀ c, tasks s !! c = None →
     move_ctor cls c a s =
       Done tt (set_tasks (<[c := empty_task]> (tasks s)) s)).
Proof.
  intros Hwf He. pose proof (is_empty_true_inv s s a Hwf He) as Ha.
  repeat split.
  - by apply invoke_empty_spec.
  - done.
  - rewrite (destroy_spec cls s a empty_task) by done. by destruct s.
  - intros b tb Hne Hb.
    by rewrite (move_assign_spec cls s a b empty_task tb).
  - intros c Hc. rewrite (move_ctor_spec cls s c a empty_task) by done.
    destruct s as [eo tb tk tp w]; simpl in *.
    unfold set_world, set_tasks; simpl. do 2 f_equal.
    assert (c ≠ a) by congruence. map_norm.
Qed.

(** ** Slot/table consistency *)


End Claims.

Section Moves.
Context {V W Args R : Type}.
Variable cls : ty → payload_class V W Args R.
Implicit Types (s : state V W) (t : inplace_task V) (a b : addr) (T : ty).

(** ** Behaviour of a container under invocation *)

Lemma wf_set_world s w : wf s → wf (set_world w s).
Proof. by intros (He & Het & Htmp & Hall). Qed.

(** Invocation only depends on what the invoked container holds, on the
    tables and on the world. *)
Lemma invoke_same_content s1 s2 a b t (args : Args) :
  wf s1 → wf s2 → tables s1 = tables s2 → world s1 = world s2 →
  tasks s1 !! a = Some t → tasks s2 !! b = Some t →
  observe a (invoke cls a args s1) = observe b (invoke cls b args s2).
Proof.
  intros Hwf1 Hwf2 Htb Hw Ha Hb.
  destruct (wf_task s1 a t Hwf1 Ha) as [->|(T & v & -> & HT)].
  - rewrite !invoke_empty_spec by done. simpl. by rewrite Ha, Hb, Hw.
  - rewrite (invoke_full_spec cls s1 a T v), (invoke_full_spec cls s2 b T v);
      try done; [|by rewrite <- Htb].
    rewrite Hw. destruct (p_call (cls T) v args (world s2)) as [[[r|e] v'] w'];
      simpl; by rewrite !lookup_insert_eq.
Qed.

(** The state after the content [t] of [src] went to [dst]. *)
Lemma transferred_intro s src dst t w m :
  wf s → src ≠ dst → tasks s !! src = Some t →
  map_Forall (λ _ t, task_ok s t) m →
  transferred cls src dst s
    (set_world w (set_tasks (<[dst := t]> (<[src := empty_task]> m)) s)).
Proof.
  intros Hwf Hne Hsrc Hm.
  set (s' := set_world w (set_tasks (<[dst := t]> (<[src := empty_task]> m)) s)).
  assert (wf s') as Hwf'.
  { apply wf_update; [done|].
    apply map_Forall_insert_2; [by eapply wf_lookup|].
    apply map_Forall_insert_2; [exact I|done]. }
  assert (tasks s' !! src = Some empty_task) as Hsrc'.
  { simpl. by rewrite lookup_insert_ne, lookup_insert_eq. }
  assert (tasks s' !! dst = Some t) as Hdst'.
  { simpl. by rewrite lookup_insert_eq. }
  split; [done|]. split; [|split; [|split]].
  - by rewrite (is_empty_spec s' src empty_task).
  - intros args w1.
    apply (invoke_same_content _ _ dst src t); try done; by apply wf_set_world.
  - rewrite (destroy_spec cls s' src empty_task) by done. done.
  - rewrite (move_assign_spec cls s' src dst empty_task t) by done.
    eexists. split; [done|]. simpl. by rewrite lookup_insert_eq.
Qed.

(** ** Move construction and move assignment *)

(** C3. For a container [src], empty or populated, and a distinct [dst]:
    move construction of [dst] from [src], and move assignment of [src] to a
    live [dst], complete; afterwards [src] reports [is_empty], can be
    destroyed or assigned to again, and invoking [dst] gives, in every
    world, what invoking [src] gave before the move. *)
Theorem move_empties_source s src dst t :
  wf s → tasks s !! src = Some t → src ≠ dst →
  (tasks s !! dst = None →
     ∃ s', move_ctor cls dst src s = Done tt s' ∧ transferred cls src dst s s') ∧
  (∀ t', tasks s !! dst = Some t' →
     ∃ s', move_assign cls dst src s = Done tt s' ∧ transferred cls src dst s s').
Proof.
  intros Hwf Hsrc Hne. split.
  - intros Hdst. rewrite (move_ctor_spec cls s dst src t) by done.
    eexists. split; [done|]. apply transferred_intro; try done. by apply wf_tasks.
  - intros t' Hdst. rewrite (move_assign_spec cls s dst src t' t) by done.
    eexists. split; [done|]. apply transferred_intro; try done. by apply wf_tasks.
Qed.

(** C7. Move assignment [dst = move(src)] with [dst] distinct from [src]
    completes; the world it leaves is the one obtained by first running the
    destructor of what [dst] held through the table [dst] was bound to, and
    then relocating what [src] held; afterwards [dst] has the table and the
    payload [src] had and [src] is bound to the empty table. *)
Theorem move_assign_destroys_destination_first s dst src td ts :
  wf s → dst ≠ src → tasks s !! dst = Some td → tasks s !! src = Some ts →
  ∃ s', move_assign cls dst src s = Done tt s' ∧
        world s' = reloc_effect cls ts (dtor_effect cls td (world s)) ∧
        tasks s' = <[dst := ts]> (<[src := empty_task]> (tasks s)) ∧
        tasks s' !! dst = Some ts ∧
        tasks s' !! src = Some empty_task ∧
        tables s' = tables s.
Proof.
  intros Hwf Hne Hdst Hsrc.
  rewrite (move_assign_spec cls s dst src td ts) by done.
  eexists. split; [done|]. simpl. repeat split.
  - apply lookup_insert_eq.
  - by rewrite lookup_insert_ne, lookup_insert_eq.
Qed.

(** C9. Move assignment of a container to itself completes: the payload it
    held, if any, is destroyed through its table, the container is left
    bound to the empty table and reports [is_empty], the state is consistent,
    and destroying the container afterwards runs no destructor of a payload
    again. *)
Theorem self_move_assign_empties s a t :
  wf s → tasks s !! a = Some t →
  ∃ s', move_assign cls a a s = Done tt s' ∧
        world s' = dtor_effect cls t (world s) ∧
        tasks s' = <[a := empty_task]> (tasks s) ∧
        is_empty a s' = Done true s' ∧
        wf s' ∧
        destroy cls a s' = Done tt (set_tasks (delete a (tasks s')) s').
Proof.
  intros Hwf Ha.
  pose proof (exec_wf cls s (MoveAssign a a) Hwf) as Hwf'. simpl in Hwf'.
  rewrite (move_assign_self_spec cls s a t) in Hwf' |- * by done.
  eexists. split; [done|]. split; [done|]. split; [done|].
  assert (tasks (set_world (dtor_effect cls t (world s))
            (set_tasks (<[a:=empty_task]> (tasks s)) s)) !! a
          = Some empty_task) as Ha' by apply lookup_insert_eq.
  split; [|split; [done|]].
  - by rewrite (is_empty_spec _ a empty_task).
  - by rewrite (destroy_spec cls _ a empty_task).
Qed.

(** ** Swap *)

(** C5. Swapping two distinct containers completes and exchanges what they
    hold: if invoking [a] returned [r1] before, invoking [b] returns [r1]
    afterwards, and the other way round (with [r1 = 1] and [r2 = 2]: [a]
    then returns 2 and [b] returns 1); each payload is afterwards in the
    other container and nowhere else; the only destructor runs are those of
    the three relocations, on their moved-from sources; and swapping a
    container with itself returns at once with the state unchanged. *)
Theorem swap_exchanges s a b ta tb (r1 r2 : R) :
  wf s → a ≠ b → tasks s !! a = Some ta → tasks s !! b = Some tb →
  ∃ s', swap cls a b s = Done tt s' ∧
        (∀ Ta va, ta = full_task Ta va →
           (∀ x w, (p_call (cls Ta) va x w).1.1 = Returns r1) →
           ∀ x, ∃ s1, invoke cls b x s' = Done r1 s1) ∧
        (∀ Tb vb, tb = full_task Tb vb →
           (∀ x w, (p_call (cls Tb) vb x w).1.1 = Returns r2) →
           ∀ x, ∃ s2, invoke cls a x s' = Done r2 s2) ∧
        tasks s' = <[a := tb]> (<[b := ta]> (tasks s)) ∧
        world s' = reloc_effect cls ta (reloc_effect cls tb
                     (reloc_effect cls ta (world s))) ∧
        tables s' = tables s ∧
        wf s' ∧
        swap cls a a s = Done tt s ∧
        swap cls b b s = Done tt s.
Proof.
  intros Hwf Hne Ha Hb.
  pose proof (exec_wf cls s (Swap a b) Hwf) as Hwf'. simpl in Hwf'.
  rewrite (swap_spec cls s a b ta tb) in Hwf' |- * by done.
  eexists. split; [done|].
  split; [|split; [|do 3 (split; [done|]); split; [exact Hwf'|];
                      split; apply swap_self_spec]].
  - intros Ta va -> Hr x.
    pose proof (wf_lookup s a _ Hwf Ha) as [HT _].
    rewrite (invoke_full_spec cls _ b Ta va); simpl; try done.
    + specialize (Hr x (reloc_effect cls (full_task Ta va)
        (reloc_effect cls tb (reloc_effect cls (full_task Ta va) (world s))))).
      destruct (p_call _ _ _ _) as [[r v'] w']. simpl in Hr. subst r. by eexists.
    + by rewrite lookup_insert_ne, lookup_insert_eq.
  - intros Tb vb -> Hr x.
    pose proof (wf_lookup s b _ Hwf Hb) as [HT _].
    rewrite (invoke_full_spec cls _ a Tb vb); simpl; try done.
    + specialize (Hr x (reloc_effect cls ta
        (reloc_effect cls (full_task Tb vb) (reloc_effect cls ta (world s))))).
      destruct (p_call _ _ _ _) as [[r v'] w']. simpl in Hr. subst r. by eexists.
    + by rewrite lookup_insert_eq.
Qed.

(** ** The table registry *)

(** The table of [Func] is constructed by the first call of [get<Func>];
    a later call returns the same address and leaves the table as it is. *)
Lemma get_reuses (Func : ty) s :
  ∃ s1, get (V:=V) (W:=W) Func s = Done (table_at (func_tbl Func)) s1 ∧
        tables s1 !! func_tbl Func = Some (func_table Func) ∧
        get Func s1 = Done (table_at (func_tbl Func)) s1.
Proof.
  eexists. split; [reflexivity|]. simpl. split; [apply lookup_insert_eq|].
  unfold get, static_table, set_tables; simpl. do 2 f_equal.
  by rewrite insert_insert_eq.
Qed.

(** C8, on the code. A container constructed from an rvalue of the class
    [c] and one constructed from a const rvalue of the same class hold
    payload objects of the same class [c], yet are bound to two different
    tables: the constructor asks for the table of the deduced [T], not of
    the stored type [FunT]. *)
Theorem same_class_two_tables s a b (c : class_id) (va vb : V) :
  a ≠ b → tasks s !! a = None → tasks s !! b = None →
  ∃ s' ta tb,
    run cls [Construct a (Plain c) va; Construct b (Const c) vb] s = Done tt s' ∧
    tasks s' !! a = Some ta ∧ tasks s' !! b = Some tb ∧
    holds c (buffer ta) ∧ holds c (buffer tb) ∧
    oper_ptr ta = table_at (func_tbl (decay (Plain c))) ∧
    oper_ptr tb ≠ table_at (func_tbl (decay (Const c))) ∧
    oper_ptr ta ≠ oper_ptr tb.
Proof.
  intros Hne Ha Hb. simpl. unfold bind.
  rewrite construct_spec by done.
  rewrite construct_spec by (simpl; by rewrite lookup_insert_ne).
  unfold ret. do 3 eexists. split; [done|]. simpl.
  rewrite lookup_insert_ne, !lookup_insert_eq by done.
  repeat split; simpl; done.
Qed.

End Moves.

Section Destruction.
Context {V W Args R : Type}.
Variable cls : ty → payload_class V W Args R.
Implicit Types (s : state V W) (t : inplace_task V) (a b : addr) (T : ty).

(** ** Counting destructor runs *)

Lemma reloc_effect_empty (w : W) : reloc_effect cls empty_task w = w.
Proof. reflexivity. Qed.

Lemma dtor_effect_empty (w : W) : dtor_effect cls empty_task w = w.
Proof. reflexivity. Qed.

Lemma reloc_effect_full T (v : V) (w : W) :
  reloc_effect cls (full_task T v) w = husk_dtor cls T v w.
Proof. reflexivity. Qed.

Lemma dtor_effect_full T (v : V) (w : W) :
  dtor_effect cls (full_task T v) w = p_dtor (cls T) v w.
Proof. reflexivity. Qed.

(** Establish: after the construction of the first container from the
    payload, it is the sole payload and nothing has been relocated. *)
Lemma sole_payload_construct a T (v : V) (w0 : W) s' :
  construct a T v (startup w0) = Done tt s' →
  sole_payload_at cls T v w0 0 s'.
Proof.
  intros Hc. pose proof (exec_wf cls (startup w0) (Construct a T v)
    (wf_startup w0)) as Hwf. simpl in Hwf.
  rewrite construct_spec in Hc, Hwf by done. injection Hc as <-.
  split; [done|]. left. split; [|done].
  exists a. simpl. split; [apply lookup_insert_eq|].
  intros b t Hne. by rewrite lookup_insert_ne.
Qed.

Ltac holder_cases Hothers :=
  intros ?b ?t ?Hb ?Hl; simpl in *;
  repeat (first [rewrite lookup_insert in Hl | rewrite lookup_delete in Hl];
          case_decide; simplify_eq); try done;
  try (eapply Hothers; [|eassumption]; congruence).

Ltac all_empty Hall :=
  intros ?b ?t ?Hl; simpl in *;
  repeat (first [rewrite lookup_insert in Hl | rewrite lookup_delete in Hl];
          case_decide; simplify_eq); try done;
  try (eapply Hall; eassumption).

Ltac count_relocs :=
  unfold relocs_of, bound_to_payload;
  repeat first
    [ rewrite decide_True by done
    | rewrite decide_False by done
    | match goal with H : tasks _ !! _ = _ |- _ => rewrite H end ];
  simpl.

(** Preserve: a statement that constructs no further payload and invokes
    nothing keeps the payload sole; it relocates it as many times as it
    calls the [move] of a payload table, or destroys it once. *)
Lemma sole_payload_exec T (v : V) (w0 : W) (n : nat) s (o : op) s' :
  sole_payload_at cls T v w0 n s → transfers o = true →
  exec cls o s = Done tt s' →
  sole_payload_at cls T v w0 (relocs_of o s + n) s'.
Proof.
  intros [Hwf Hcase] Ho He.
  pose proof (exec_wf cls s o Hwf) as Hwf'. rewrite He in Hwf'.
  split; [done|]. clear Hwf'.
  destruct Hcase as [[(h & Hh & Hothers) Hw]|[Hall Hw]].
  - (* the payload is held by [h] *)
    assert (∀ x t, tasks s !! x = Some t →
              (x = h ∧ t = full_task T v) ∨ (x ≠ h ∧ t = empty_task)) as Hcl.
    { intros x t Hx. destruct (decide (x = h)) as [->|Hne].
      - left. split; [done|congruence].
      - right. split; [done|]. by eapply Hothers. }
    destruct o as [a|a T' v'|a b|a b|a b|a args|a|a]; simpl in *; try done.
    + destruct (tasks s !! a) eqn:Ha.
      { unfold default_ctor, bind, alloc in He. by rewrite Ha in He. }
      rewrite default_ctor_spec in He by done. injection He as <-.
      count_relocs. left. split; [|done]. exists h. split.
      * simpl. rewrite lookup_insert_ne by congruence. done.
      * holder_cases Hothers.
    + destruct (tasks s !! a) eqn:Ha.
      { unfold move_ctor, bind, alloc in He. by rewrite Ha in He. }
      destruct (tasks s !! b) as [tb|] eqn:Hb.
      2:{ exfalso. revert He.
          destruct (decide (a = b)) as [->|?]; open_state s Hwf; mrun; done. }
      rewrite (move_ctor_spec cls s a b tb) in He by done. injection He as <-.
      destruct (Hcl b tb Hb) as [[-> ->]|[Hne ->]].
      * count_relocs. left. rewrite reloc_effect_full, Hw. split; [|done].
        exists a. split; [apply lookup_insert_eq|]. holder_cases Hothers.
      * count_relocs. left. rewrite reloc_effect_empty. split; [|done].
        exists h. split.
        { simpl. rewrite !lookup_insert_ne by congruence. done. }
        holder_cases Hothers.
    + destruct (tasks s !! a) as [ta|] eqn:Ha.
      2:{ unfold move_assign, bind, read_oper in He. by rewrite Ha in He. }
      destruct (decide (a = b)) as [<-|Hab].
      { rewrite (move_assign_self_spec cls s a ta) in He by done.
        injection He as <-.
        destruct (Hcl a ta Ha) as [[-> ->]|[Hne ->]].
        - count_relocs. right. rewrite dtor_effect_full, Hw. split; [|done].
          all_empty Hothers. eapply Hothers; [|eassumption]. congruence.
        - count_relocs. left. rewrite dtor_effect_empty. split; [|done].
          exists h. split.
          { simpl. rewrite lookup_insert_ne by congruence. done. }
          holder_cases Hothers. }
      destruct (tasks s !! b) as [tb|] eqn:Hb.
      2:{ exfalso. revert He.
          destruct (wf_task s a ta Hwf Ha) as [->|(T1 & v1 & -> & HT)];
            open_state s Hwf; mrun; done. }
      rewrite (move_assign_spec cls s a b ta tb) in He by done.
      injection He as <-.
      destruct (Hcl a ta Ha) as [[-> ->]|[Hna ->]];
        destruct (Hcl b tb Hb) as [[-> ->]|[Hnb ->]]; try done.
      * count_relocs. right. rewrite reloc_effect_empty, dtor_effect_full, Hw.
        split; [|done]. all_empty Hothers.
        eapply Hothers; [|eassumption]. congruence.
      * count_relocs. left. rewrite reloc_effect_full, dtor_effect_empty, Hw.
        split; [|done]. exists a. split; [apply lookup_insert_eq|].
        holder_cases Hothers.
      * count_relocs. left. rewrite reloc_effect_empty, dtor_effect_empty.
        split; [|done]. exists h. split.
        { simpl. rewrite !lookup_insert_ne by congruence. done. }
        holder_cases Hothers.
    + destruct (decide (a = b)) as [<-|Hab].
      { rewrite swap_self_spec in He. injection He as <-.
        count_relocs. left. split; [|done]. by exists h. }
      destruct (tasks s !! a) as [ta|] eqn:Ha.
      2:{ exfalso. revert He. unfold swap. rewrite decide_False by done.
          unfold bind, store, read_oper; simpl. by rewrite Ha. }
      destruct (tasks s !! b) as [tb|] eqn:Hb.
      2:{ exfalso. revert He.
          destruct (wf_task s a ta Hwf Ha) as [->|(T1 & v1 & -> & HT)];
            open_state s Hwf; mrun; done. }
      rewrite (swap_spec cls s a b ta tb) in He by done. injection He as <-.
      destruct (Hcl a ta Ha) as [[-> ->]|[Hna ->]];
        destruct (Hcl b tb Hb) as [[-> ->]|[Hnb ->]]; try done.
      * count_relocs. left.
        rewrite !reloc_effect_full, reloc_effect_empty, Hw. split; [|done].
        exists b. split.
        { simpl. by rewrite lookup_insert_ne, lookup_insert_eq. }
        holder_cases Hothers.
      * count_relocs. left.
        rewrite !reloc_effect_empty, reloc_effect_full, Hw. split; [|done].
        exists a. split; [apply lookup_insert_eq|]. holder_cases Hothers.
      * count_relocs. left. rewrite !reloc_effect_empty. split; [|done].
        exists h. split.
        { simpl. rewrite !lookup_insert_ne by congruence. done. }
        holder_cases Hothers.
    + destruct (tasks s !! a) as [ta|] eqn:Ha.
      2:{ unfold is_empty, bind, read_oper in He. by rewrite Ha in He. }
      unfold bind in He. rewrite (is_empty_spec s a ta) in He by done.
      injection He as <-. count_relocs. left. split; [|done]. by exists h.
    + destruct (tasks s !! a) as [ta|] eqn:Ha.
      2:{ unfold destroy, bind, read_oper in He. by rewrite Ha in He. }
      rewrite (destroy_spec cls s a ta) in He by done. injection He as <-.
      destruct (Hcl a ta Ha) as [[-> ->]|[Hna ->]].
      * count_relocs. right. rewrite dtor_effect_full, Hw. split; [|done].
        all_empty Hothers. eapply Hothers; [|eassumption]. congruence.
      * count_relocs. left. rewrite dtor_effect_empty. split; [|done].
        exists h. split.
        { simpl. rewrite lookup_delete_ne by congruence. done. }
        holder_cases Hothers.
  - (* the payload has been destroyed: every container is empty *)
    destruct o as [a|a T' v'|a b|a b|a b|a args|a|a]; simpl in *; try done.
    + destruct (tasks s !! a) eqn:Ha.
      { unfold default_ctor, bind, alloc in He. by rewrite Ha in He. }
      rewrite default_ctor_spec in He by done. injection He as <-.
      count_relocs. right. split; [|done]. all_empty Hall.
    + destruct (tasks s !! a) eqn:Ha.
      { unfold move_ctor, bind, alloc in He. by rewrite Ha in He. }
      destruct (tasks s !! b) as [tb|] eqn:Hb.
      2:{ exfalso. revert He.
          destruct (decide (a = b)) as [->|?]; open_state s Hwf; mrun; done. }
      rewrite (move_ctor_spec cls s a b tb) in He by done. injection He as <-.
      pose proof (Hall b tb Hb) as ->. rewrite reloc_effect_empty.
      count_relocs. right. split; [|done]. all_empty Hall.
    + destruct (tasks s !! a) as [ta|] eqn:Ha.
      2:{ unfold move_assign, bind, read_oper in He. by rewrite Ha in He. }
      destruct (decide (a = b)) as [<-|Hab].
      { rewrite (move_assign_self_spec cls s a ta) in He by done.
        injection He as <-. pose proof (Hall a ta Ha) as ->.
        rewrite dtor_effect_empty.
        count_relocs. right. split; [|done]. all_empty Hall. }
      destruct (tasks s !! b) as [tb|] eqn:Hb.
      2:{ exfalso. revert He.
          destruct (wf_task s a ta Hwf Ha) as [->|(T1 & v1 & -> & HT)];
            open_state s Hwf; mrun; done. }
      rewrite (move_assign_spec cls s a b ta tb) in He by done.
      injection He as <-.
      pose proof (Hall a ta Ha) as ->. pose proof (Hall b tb Hb) as ->.
      rewrite reloc_effect_empty, dtor_effect_empty.
      count_relocs. right. split; [|done]. all_empty Hall.
    + destruct (decide (a = b)) as [<-|Hab].
      { rewrite swap_self_spec in He. injection He as <-.
        count_relocs. by right. }
      destruct (tasks s !! a) as [ta|] eqn:Ha.
      2:{ exfalso. revert He. unfold swap. rewrite decide_False by done.
          unfold bind, store, read_oper; simpl. by rewrite Ha. }
      destruct (tasks s !! b) as [tb|] eqn:Hb.
      2:{ exfalso. revert He.
          destruct (wf_task s a ta Hwf Ha) as [->|(T1 & v1 & -> & HT)];
            open_state s Hwf; mrun; done. }
      rewrite (swap_spec cls s a b ta tb) in He by done. injection He as <-.
      pose proof (Hall a ta Ha) as ->. pose proof (Hall b tb Hb) as ->.
      rewrite !reloc_effect_empty.
      count_relocs. right. split; [|done]. all_empty Hall.
    + destruct (tasks s !! a) as [ta|] eqn:Ha.
      2:{ unfold is_empty, bind, read_oper in He. by rewrite Ha in He. }
      unfold bind in He. rewrite (is_empty_spec s a ta) in He by done.
      injection He as <-. count_relocs. by right.
    + destruct (tasks s !! a) as [ta|] eqn:Ha.
      2:{ unfold destroy, bind, read_oper in He. by rewrite Ha in He. }
      rewrite (destroy_spec cls s a ta) in He by done. injection He as <-.
      pose proof (Hall a ta Ha) as ->. rewrite dtor_effect_empty.
      count_relocs. right. split; [|done]. all_empty Hall.
Qed.

End Destruction.

Section Once.
Context {V W Args R : Type}.
Variable cls : ty → payload_class V W Args R.
Implicit Types (s : state V W) (t : inplace_task V) (a b : addr) (T : ty).

Lemma sole_payload_run T (v : V) (w0 : W) (l : list op) (n : nat) s s' :
  sole_payload_at cls T v w0 n s → forallb transfers l = true →
  run cls l s = Done tt s' →
  sole_payload_at cls T v w0 (relocations cls l s + n) s'.
Proof.
  revert s n. induction l as [|o l IH]; intros s n Hs Hl Hr; simpl in *.
  - by injection Hr as <-.
  - apply andb_prop in Hl as [Ho Hl]. unfold bind in Hr.
    destruct (exec cls o s) as [[] s1|e s1|] eqn:He; try done.
    replace (relocs_of o s + relocations cls l s1 + n)
      with (relocations cls l s1 + (relocs_of o s + n)) by lia.
    eapply IH; [|done|done]. by eapply sole_payload_exec.
Qed.

(** Use: once no container is left, the payload has been destroyed. *)
Lemma sole_payload_end T (v : V) (w0 : W) (n : nat) s :
  sole_payload_at cls T v w0 n s → tasks s = ∅ →
  world s = p_dtor (cls T) v (Nat.iter n (husk_dtor cls T v) w0).
Proof.
  intros [_ [[(h & Hh & _) _]|[_ Hw]]] Hend.
  - by rewrite Hend, lookup_empty in Hh.
  - done.
Qed.

(** From the construction of the payload to the end of all containers. *)
Lemma sole_payload_program a T (v : V) (w0 : W) (l : list op) s' :
  forallb transfers l = true →
  run cls (Construct a T v :: l) (startup w0) = Done tt s' →
  tasks s' = ∅ →
  world s' =
    p_dtor (cls T) v
      (Nat.iter (relocations cls (Construct a T v :: l) (startup w0))
         (husk_dtor cls T v) w0).
Proof.
  intros Hl Hr Hend. simpl in *. unfold bind in Hr.
  destruct (construct a T v (startup w0)) as [[] s1|e s1|] eqn:Hc; try done.
  replace (relocations cls l s1) with (relocations cls l s1 + 0) by lia.
  eapply sole_payload_end; [|done].
  eapply sole_payload_run; [|done|done]. by eapply sole_payload_construct.
Qed.

(** C4, as the code has it. Start with one container constructed from a
    payload of value [v]; run any statements that move-construct,
    move-assign, swap, default-construct, query or destroy containers; end
    with no container left. Then, of the destructor runs made through the
    containers, exactly one is on the payload itself, and it is the last;
    before it the destructor has run exactly once per relocation the program
    performed, each time on the source object that relocation left
    behind. *)
Theorem payload_destroyed_once a T (v : V) (w0 : W) (l : list op) s' :
  forallb transfers l = true →
  run cls (Construct a T v :: l) (startup w0) = Done tt s' →
  tasks s' = ∅ →
  world s' =
    p_dtor (cls T) v
      (Nat.iter (relocations cls (Construct a T v :: l) (startup w0))
         (husk_dtor cls T v) w0).
Proof.
  intros Hl Hr Hend. by apply sole_payload_program.
Qed.

End Once.

Lemma iter_succ (n w : nat) : Nat.iter n S w = n + w.
Proof. induction n as [|n IH]; [done|]. simpl. by rewrite IH. Qed.

Lemma iter_id {A} (n : nat) (x : A) : Nat.iter n (λ y, y) x = x.
Proof. induction n as [|n IH]; [done|]. by simpl. Qed.

(** A destructor that increments the counter at every run leaves it at one
    plus the number of relocations. *)
Lemma counting_destructor_count a T (b : bool) (w0 : nat) (l : list op) s' :
  forallb transfers l = true →
  run counting_cls (Construct a T b :: l) (startup w0) = Done tt s' →
  tasks s' = ∅ →
  world s' = S (relocations counting_cls (Construct a T b :: l) (startup w0) + w0).
Proof.
  intros Hl Hr Hend.
  rewrite (sole_payload_program counting_cls a T b w0 l s') by done.
  unfold husk_dtor, counting_cls at 1 3. cbn [p_dtor]. by rewrite iter_succ.
Qed.

(** A destructor that counts owning objects only counts once when the
    relocations move, that is, through the table of the class itself. *)
Lemma guard_counted_once a (c : class_id) (l : list op) s' :
  forallb transfers l = true →
  run guard_cls (Construct a (Plain c) true :: l) (startup 0) = Done tt s' →
  tasks s' = ∅ →
  world s' = 1.
Proof.
  intros Hl Hr Hend.
  rewrite (sole_payload_program guard_cls a (Plain c) true 0 l s') by done.
  unfold husk_dtor. cbn [p_dtor p_moved guard_cls]. by rewrite iter_id.
Qed.

(** Through the table of the const-qualified class the relocations copy,
    every source still owns, and the same destructor counts one plus the
    number of relocations. *)
Lemma guard_counts_copies a (c : class_id) (l : list op) s' :
  forallb transfers l = true →
  run guard_cls (Construct a (Const c) true :: l) (startup 0) = Done tt s' →
  tasks s' = ∅ →
  world s' = S (relocations guard_cls (Construct a (Const c) true :: l) (startup 0)).
Proof.
  intros Hl Hr Hend.
  rewrite (sole_payload_program guard_cls a (Const c) true 0 l s') by done.
  unfold husk_dtor. cbn [p_dtor p_moved guard_cls].
  rewrite iter_succ. f_equal. lia.
Qed.

(** ** Containers constructed before static initialisation *)

Section BeforeInit.
Context {V W Args R : Type}.
Variable cls : ty → payload_class V W Args R.

(** C2, on the code. A container default-constructed while [empty_oper] is
    still zero-initialised copies the null pointer: it reports [is_empty],
    yet invoking it dereferences the null pointer instead of throwing
    [bad_function_call]. *)
Theorem default_container_invocation_undefined (w : W) (a : addr) (args : Args) :
  ∃ s1, default_ctor a (boot (V:=V) w) = Done tt s1 ∧
        is_empty a s1 = Done true s1 ∧
        invoke cls a args s1 = Undef ∧
        ∀ e s', invoke cls a args s1 ≠ Thrown e s'.
Proof.
  set (s1 := set_tasks (<[a := {| buffer := None; oper_ptr := nullptr |}]>
                          (<[a := {| buffer := None; oper_ptr := indeterminate |}]> ∅))
               (boot (V:=V) w)).
  assert (invoke cls a args s1 = Undef) as Hinv by (subst s1; mrun; done).
  exists s1. split.
  { unfold default_ctor, bind, alloc, read_empty_oper, write_oper, boot; simpl.
    rewrite lookup_empty. simpl. rewrite lookup_insert_eq. reflexivity. }
  split; [subst s1; mrun; done|]. split; [exact Hinv|].
  intros e s' He. rewrite Hinv in He. discriminate.
Qed.

(** C6, on the code. A container default-constructed while [empty_oper] is
    still zero-initialised is bound to the null pointer, and stays so for
    the rest of its lifetime: after the initialiser has run the container is
    still bound to the null pointer, and the state is not consistent. *)
Theorem default_container_bound_to_null (w : W) (a : addr) :
  ∃ s1 s2 t,
    default_ctor a (boot (V:=V) w) = Done tt s1 ∧
    tasks s1 !! a = Some t ∧ oper_ptr t = nullptr ∧
    static_init s1 = Done tt s2 ∧
    tasks s2 !! a = Some t ∧ ¬ task_ok s2 t ∧ ¬ wf s2.
Proof.
  eexists. eexists. eexists. split.
  { unfold default_ctor, bind, alloc, read_empty_oper, write_oper, boot; simpl.
    rewrite lookup_empty. simpl. rewrite lookup_insert_eq. reflexivity. }
  split; [apply lookup_insert_eq|]. split; [reflexivity|].
  split; [reflexivity|]. split; [apply lookup_insert_eq|].
  split; [by intros []|].
  intros (_ & _ & _ & Hall).
  by apply (Hall a {| buffer := None; oper_ptr := nullptr |}),
    lookup_insert_eq.
Qed.

End BeforeInit.

(** * Instances *)

Lemma invoke_identity_witness :
  tasks (startup (V:=nat) ([] : list event)) !! 0 = None ∧
  observe 0 (bind (construct 0 (Plain 0) 5) (λ _, invoke closure_cls 0 tt)
               (startup []))
  = Some (Returns 10, [ev_call 0 5], Some (Some {| o_class := 0; o_val := 5 |})).
Proof.
  split; [reflexivity|].
  exact (eq_trans (invoke_identity closure_cls (startup []) 0 (Plain 0) 5 tt eq_refl)
                  eq_refl).
Defined.

Lemma empty_invocation_fails_witness :
  wf doubling_closures ∧ tasks doubling_closures !! 1 = None ∧
  admissible doubling_closures (Invoke 3 tt) ∧
  invoke closure_cls 3 tt doubling_closures = Thrown bad_function_call doubling_closures.
Proof.
  assert (wf doubling_closures) as Hwf by compute_done.
  assert (tasks doubling_closures !! 1 = None) as Hfresh by reflexivity.
  assert (admissible doubling_closures (@Invoke nat unit 3 tt)) as Hadm
    by (vm_compute; eauto).
  split; [exact Hwf|]. split; [exact Hfresh|]. split; [exact Hadm|].
  destruct (empty_invocation_fails closure_cls doubling_closures 1 (Invoke 3 tt) tt
              Hwf Hfresh Hadm) as (_ & Hempty & _).
  apply Hempty. reflexivity.
Defined.

Lemma failed_invocation_atomic_witness :
  wf doubling_closures ∧
  is_empty 3 doubling_closures = Done true doubling_closures ∧
  invoke closure_cls 3 tt doubling_closures = Thrown bad_function_call doubling_closures.
Proof.
  assert (wf doubling_closures) as Hwf by compute_done.
  assert (is_empty 3 doubling_closures = Done true doubling_closures) as He
    by reflexivity.
  split; [exact Hwf|]. split; [exact He|].
  exact (proj1 (failed_invocation_atomic closure_cls doubling_closures 3 tt Hwf He)).
Defined.


Lemma move_empties_source_witness :
  wf doubling_closures ∧
  tasks doubling_closures !! 0 = Some (full_task (Plain 0) 5) ∧
  0 ≠ 1 ∧ tasks doubling_closures !! 1 = None ∧
  ∃ s', move_ctor closure_cls 1 0 doubling_closures = Done tt s' ∧
        transferred closure_cls 0 1 doubling_closures s'.
Proof.
  assert (wf doubling_closures) as Hwf by compute_done.
  assert (tasks doubling_closures !! 0 = Some (full_task (Plain 0) 5)) as Hsrc
    by reflexivity.
  assert (0 ≠ 1) as Hne by lia.
  assert (tasks doubling_closures !! 1 = None) as Hdst by reflexivity.
  split; [exact Hwf|]. split; [exact Hsrc|]. split; [exact Hne|].
  split; [exact Hdst|].
  exact (proj1 (move_empties_source closure_cls doubling_closures 0 1 _
                  Hwf Hsrc Hne) Hdst).
Defined.

Lemma move_assign_destroys_destination_first_witness :
  wf doubling_closures ∧ 2 ≠ 0 ∧
  tasks doubling_closures !! 2 = Some (full_task (Plain 1) 7) ∧
  tasks doubling_closures !! 0 = Some (full_task (Plain 0) 5) ∧
  ∃ s', move_assign closure_cls 2 0 doubling_closures = Done tt s' ∧
        world s' = [ev_dtor 1 7; ev_dtor 0 5].
Proof.
  assert (wf doubling_closures) as Hwf by compute_done.
  assert (2 ≠ 0) as Hne by lia.
  assert (tasks doubling_closures !! 2 = Some (full_task (Plain 1) 7)) as Hdst
    by reflexivity.
  assert (tasks doubling_closures !! 0 = Some (full_task (Plain 0) 5)) as Hsrc
    by reflexivity.
  split; [exact Hwf|]. split; [exact Hne|]. split; [exact Hdst|].
  split; [exact Hsrc|].
  destruct (move_assign_destroys_destination_first closure_cls doubling_closures
              2 0 _ _ Hwf Hne Hdst Hsrc) as (s' & Hrun & Hw & _).
  exists s'. split; [exact Hrun|exact Hw].
Defined.

Lemma self_move_assign_empties_witness :
  wf doubling_closures ∧
  tasks doubling_closures !! 0 = Some (full_task (Plain 0) 5) ∧
  ∃ s', move_assign closure_cls 0 0 doubling_closures = Done tt s' ∧
        world s' = [ev_dtor 0 5] ∧
        is_empty 0 s' = Done true s'.
Proof.
  assert (wf doubling_closures) as Hwf by compute_done.
  assert (tasks doubling_closures !! 0 = Some (full_task (Plain 0) 5)) as Ha
    by reflexivity.
  split; [exact Hwf|]. split; [exact Ha|].
  destruct (self_move_assign_empties closure_cls doubling_closures 0 _ Hwf Ha)
    as (s' & Hrun & Hw & _ & He & _).
  exists s'. split; [exact Hrun|]. split; [exact Hw|exact He].
Defined.

Lemma swap_exchanges_witness :
  wf two_closures ∧ 0 ≠ 1 ∧
  tasks two_closures !! 0 = Some (full_task (Plain 1) 1) ∧
  tasks two_closures !! 1 = Some (full_task (Plain 2) 2) ∧
  ∃ s', swap const_cls 0 1 two_closures = Done tt s' ∧
        (∃ s1, invoke const_cls 0 tt s' = Done 2 s1) ∧
        (∃ s2, invoke const_cls 1 tt s' = Done 1 s2).
Proof.
  assert (wf two_closures) as Hwf by compute_done.
  assert (0 ≠ 1) as Hne by lia.
  assert (tasks two_closures !! 0 = Some (full_task (Plain 1) 1)) as Ha
    by reflexivity.
  assert (tasks two_closures !! 1 = Some (full_task (Plain 2) 2)) as Hb
    by reflexivity.
  split; [exact Hwf|]. split; [exact Hne|]. split; [exact Ha|].
  split; [exact Hb|].
  destruct (swap_exchanges const_cls two_closures 0 1 _ _ 1 2 Hwf Hne Ha Hb)
    as (s' & Hrun & Hab & Hba & _).
  exists s'. split; [exact Hrun|]. split.
  - exact (Hba (Plain 2) 2 eq_refl (λ _ _, eq_refl) tt).
  - exact (Hab (Plain 1) 1 eq_refl (λ _ _, eq_refl) tt).
Defined.

Lemma same_class_two_tables_witness :
  0 ≠ 1 ∧ tasks (startup (V:=nat) ([] : list event)) !! 0 = None ∧
  tasks (startup (V:=nat) ([] : list event)) !! 1 = None ∧
  ∃ s' ta tb,
    run closure_cls [Construct 0 (Plain 0) 5; Construct 1 (Const 0) 5] (startup [])
      = Done tt s' ∧
    tasks s' !! 0 = Some ta ∧ tasks s' !! 1 = Some tb ∧
    holds 0 (buffer ta) ∧ holds 0 (buffer tb) ∧
    oper_ptr ta ≠ oper_ptr tb.
Proof.
  assert (0 ≠ 1) as Hne by lia.
  split; [exact Hne|]. split; [reflexivity|]. split; [reflexivity|].
  destruct (same_class_two_tables closure_cls (startup []) 0 1 0 5 5
              Hne eq_refl eq_refl)
    as (s' & ta & tb & Hrun & Ha & Hb & Hca & Hcb & _ & _ & Hdiff).
  exists s', ta, tb. repeat split; assumption.
Defined.

Lemma payload_destroyed_once_witness :
  forallb transfers [@MoveCtor bool unit 1 0; Destroy 0; Destroy 1] = true ∧
  run counting_cls scenario_move_destroy (startup 0)
    = Done tt (final counting_cls scenario_move_destroy 0) ∧
  tasks (final counting_cls scenario_move_destroy 0) = ∅ ∧
  world (final counting_cls scenario_move_destroy 0)
  = p_dtor (counting_cls (Plain 0)) true
      (Nat.iter (relocations counting_cls scenario_move_destroy (startup 0))
         (husk_dtor counting_cls (Plain 0) true) 0) ∧
  relocations counting_cls scenario_move_destroy (startup 0) = 1.
Proof.
  assert (run counting_cls scenario_move_destroy (startup 0)
          = Done tt (final counting_cls scenario_move_destroy 0)) as Hrun
    by (vm_compute; reflexivity).
  assert (tasks (final counting_cls scenario_move_destroy 0) = ∅) as Hend
    by (vm_compute; reflexivity).
  split; [reflexivity|]. split; [exact Hrun|]. split; [exact Hend|].
  split; [|vm_compute; reflexivity].
  exact (payload_destroyed_once counting_cls 0 (Plain 0) true 0
           [MoveCtor 1 0; Destroy 0; Destroy 1] _ eq_refl Hrun Hend).
Defined.

(** C4, as stated, fails. With a payload whose destructor increments a
    counter: construct [A] from it, move [A] into [B], destroy [A], destroy
    [B]. All containers are gone and the containers have run the destructor
    twice: the relocation ran it on the moved-from object in [A], the
    destruction of [B] ran it on the payload. (A caller that passes the
    payload as a temporary runs it once more on that temporary.) *)
Lemma counting_destructor_runs_twice :
  ∃ s', run counting_cls scenario_move_destroy (startup 0) = Done tt s' ∧
        tasks s' = ∅ ∧ world s' = 2 ∧ world s' ≠ 1.
Proof.
  exists (final counting_cls scenario_move_destroy 0).
  split; [vm_compute; reflexivity|]. split; [vm_compute; reflexivity|].
  split; [reflexivity|]. vm_compute. discriminate.
Qed.

(** * Further properties of the container *)

Section Composition.
Context {V W Args R : Type}.
Variable cls : ty → payload_class V W Args R.
Implicit Types (s : state V W) (t : inplace_task V) (a b : addr) (T : ty).

(** ** Programs that only name live containers *)

(** X1. From a consistent state, a program whose statements each name live
    containers only (and declare containers at unused addresses only) never
    runs into undefined behaviour: it completes, or stops at an invocation
    that throws. *)
Theorem admissible_program_is_defined (l : list op) s :
  wf s → safe_run cls l s → run cls l s ≠ Undef.
Proof.
  revert s. induction l as [|o l IH]; intros s Hwf Hsafe; simpl in *; [done|].
  destruct Hsafe as [Hadm Hrest]. unfold bind.
  pose proof (exec_wf cls s o Hwf) as Hwf'.
  destruct (exec_total cls s o Hwf Hadm)
    as [[s' He]|(a & args & e & s' & _ & He & _)]; rewrite He in *.
  - by apply IH.
  - done.
Qed.

(** ** Round trips *)

(** X4. Swapping two distinct live containers twice puts every payload and
    table pointer back where it was, with the tables unchanged; the double
    swap has relocated the payloads six times in all. *)
Theorem swap_twice_restores s a b ta tb :
  wf s → a ≠ b → tasks s !! a = Some ta → tasks s !! b = Some tb →
  ∃ s1 s2, swap cls a b s = Done tt s1 ∧ swap cls a b s1 = Done tt s2 ∧
           tasks s2 = tasks s ∧ tables s2 = tables s ∧
           empty_oper s2 = empty_oper s ∧
           world s2 =
             reloc_effect cls tb (reloc_effect cls ta (reloc_effect cls tb
               (reloc_effect cls ta (reloc_effect cls tb
                  (reloc_effect cls ta (world s)))))).
Proof.
  intros Hwf Hne Ha Hb.
  pose proof (exec_wf cls s (Swap a b) Hwf) as Hwf1. simpl in Hwf1.
  rewrite (swap_spec cls s a b ta tb) in Hwf1 |- * by done.
  eexists. eexists. split; [done|].
  set (s1 := set_world _ _) in *.
  assert (tasks s1 !! a = Some tb) as Ha1 by apply lookup_insert_eq.
  assert (tasks s1 !! b = Some ta) as Hb1.
  { simpl. by rewrite lookup_insert_ne, lookup_insert_eq. }
  rewrite (swap_spec cls s1 a b tb ta) by done.
  split; [done|]. simpl. repeat split.
  apply map_eq. intros i.
  rewrite !lookup_insert. repeat case_decide; subst; congruence.
Qed.

(** X5. [a.swap(b)] and [b.swap(a)] leave the same containers; they differ in
    the relocations they perform: the payload of the container [swap] is
    called on is relocated twice (into [tmp] and out of it), the payload of
    the argument once. *)
Theorem swap_operands_commute s a b ta tb :
  wf s → a ≠ b → tasks s !! a = Some ta → tasks s !! b = Some tb →
  ∃ s1 s2, swap cls a b s = Done tt s1 ∧ swap cls b a s = Done tt s2 ∧
           tasks s1 = tasks s2 ∧ tables s1 = tables s2 ∧
           world s1 = reloc_effect cls ta (reloc_effect cls tb
                        (reloc_effect cls ta (world s))) ∧
           world s2 = reloc_effect cls tb (reloc_effect cls ta
                        (reloc_effect cls tb (world s))).
Proof.
  intros Hwf Hne Ha Hb.
  rewrite (swap_spec cls s a b ta tb), (swap_spec cls s b a tb ta) by done.
  eexists. eexists. split; [done|]. split; [done|]. simpl.
  repeat split. by apply insert_insert_ne.
Qed.

(** X6. Moving the content of a container into a new container, assigning
    it back and destroying the then empty new container restores every
    container and table; the payload, if there is one, has been relocated
    twice. *)
Theorem move_there_and_back s a b t :
  wf s → tasks s !! a = Some t → tasks s !! b = None →
  ∃ s1 s2 s3,
    move_ctor cls b a s = Done tt s1 ∧
    move_assign cls a b s1 = Done tt s2 ∧
    destroy cls b s2 = Done tt s3 ∧
    tasks s3 = tasks s ∧ tables s3 = tables s ∧
    world s3 = reloc_effect cls t (reloc_effect cls t (world s)).
Proof.
  intros Hwf Ha Hb. assert (a ≠ b) as Hne by congruence.
  set (s1 := set_world (reloc_effect cls t (world s))
               (set_tasks (<[b := t]> (<[a := empty_task]> (tasks s))) s)).
  set (s2 := set_world (reloc_effect cls t (dtor_effect cls empty_task (world s1)))
               (set_tasks (<[a := t]> (<[b := empty_task]> (tasks s1))) s1)).
  assert (move_ctor cls b a s = Done tt s1) as H1
    by by apply move_ctor_spec.
  assert (wf s1) as Hwf1.
  { pose proof (exec_wf cls s (MoveCtor b a) Hwf) as Hw. simpl in Hw.
    by rewrite H1 in Hw. }
  assert (tasks s1 !! a = Some empty_task) as Ha1.
  { simpl. by rewrite lookup_insert_ne, lookup_insert_eq. }
  assert (tasks s1 !! b = Some t) as Hb1 by apply lookup_insert_eq.
  assert (move_assign cls a b s1 = Done tt s2) as H2
    by by apply move_assign_spec.
  assert (wf s2) as Hwf2.
  { pose proof (exec_wf cls s1 (MoveAssign a b) Hwf1) as Hw. simpl in Hw.
    by rewrite H2 in Hw. }
  assert (tasks s2 !! b = Some empty_task) as Hb2.
  { simpl. by rewrite lookup_insert_ne, lookup_insert_eq. }
  exists s1, s2. eexists. split; [done|]. split; [done|].
  rewrite (destroy_spec cls s2 b empty_task) by done.
  split; [done|]. simpl. repeat split.
  apply map_eq. intros i.
  rewrite lookup_delete, !lookup_insert. repeat case_decide; subst; congruence.
Qed.

(** X8. Constructing a container from a payload and destroying it leaves
    the containers as they were; the destructor of the payload type has run
    once, on the payload, and the table of the deduced type stays
    constructed. *)
Theorem construct_then_destroy s a T (v : V) :
  wf s → tasks s !! a = None →
  ∃ s1 s2,
    construct a T v s = Done tt s1 ∧
    destroy cls a s1 = Done tt s2 ∧
    tasks s2 = tasks s ∧
    world s2 = p_dtor (cls T) v (world s) ∧
    tables s2 = <[func_tbl T := func_table T]> (tables s) ∧
    wf s2.
Proof.
  intros Hwf Ha.
  pose proof (exec_wf cls s (Construct a T v) Hwf) as Hwf1. simpl in Hwf1.
  rewrite construct_spec in Hwf1 |- * by done.
  eexists. eexists. split; [done|].
  set (s1 := set_tasks _ _) in *.
  assert (tasks s1 !! a = Some (full_task T v)) as Ha1 by apply lookup_insert_eq.
  pose proof (exec_wf cls s1 (Destroy a) Hwf1) as Hwf2. simpl in Hwf2.
  rewrite (destroy_spec cls s1 a (full_task T v)) in Hwf2 |- * by done.
  split; [done|]. simpl. split; [|done].
  rewrite delete_insert_eq. by apply delete_id.
Qed.

(** ** The table registry *)

(** X9. Two containers constructed with the same deduced type [T] are
    bound to the same table, and the second construction leaves the tables
    as the first one left them. *)
Theorem same_argument_type_shares_table s a b T (va vb : V) :
  a ≠ b → tasks s !! a = None → tasks s !! b = None →
  ∃ s1 s2 ta tb,
    construct a T va s = Done tt s1 ∧
    construct b T vb s1 = Done tt s2 ∧
    tasks s2 !! a = Some ta ∧ tasks s2 !! b = Some tb ∧
    oper_ptr ta = table_at (func_tbl T) ∧
    oper_ptr ta = oper_ptr tb ∧
    tables s2 = tables s1 ∧
    tables s2 !! func_tbl T = Some (func_table T).
Proof.
  intros Hne Ha Hb. rewrite construct_spec by done.
  eexists. eexists. eexists. eexists. split; [done|].
  rewrite construct_spec by (simpl; by rewrite lookup_insert_ne).
  split; [done|]. simpl.
  rewrite lookup_insert_ne, !lookup_insert_eq by done.
  repeat split. by rewrite insert_insert_eq.
Qed.

(** ** Queries and invocation *)

(** X10. On a consistent state [is_empty] changes nothing, and it answers
    [true] exactly when the buffer of the container holds no payload. *)
Theorem is_empty_iff_vacant s a t :
  wf s → tasks s !! a = Some t →
  ∃ r, is_empty a s = Done r s ∧ (r = true ↔ buffer t = None).
Proof.
  intros Hwf Ha. rewrite (is_empty_spec s a t) by done.
  eexists. split; [done|].
  destruct (wf_task s a t Hwf Ha) as [->|(T & v & -> & _)];
    compute; split; congruence.
Qed.

(** X7. Invoking a populated container with each of the arguments [xs] in
    turn is calling the payload object with them in turn: each call sees
    the value of the callable and the world the previous call left; if a
    call throws, the program stops there with the exception, and the
    container still holds the payload as that call left it. *)
Theorem invocations_thread_payload_state (xs : list Args) s a T (v : V) :
  tables s !! func_tbl T = Some (func_table T) →
  tasks s !! a = Some (full_task T v) →
  run cls (map (Invoke a) xs) s =
    let '(r, v', w') := calls cls T v xs (world s) in
    let s' := set_world w' (set_tasks (<[a := full_task T v']> (tasks s)) s) in
    match r with
    | Returns _ => Done tt s'
    | Throws e => Thrown e s'
    end.
Proof.
  revert s v. induction xs as [|x xs IH]; intros s v HT Ha; simpl.
  - unfold ret. f_equal. destruct s as [eo tb tk tp w]; simpl in *.
    unfold set_world, set_tasks; simpl. f_equal. symmetry. by apply insert_id.
  - unfold bind. rewrite (invoke_full_spec cls s a T v) by done.
    destruct (p_call (cls T) v x (world s)) as [[[r|e] v1] w1]; simpl; [|done].
    unfold ret. rewrite (IH _ v1); simpl; [|done|apply lookup_insert_eq].
    destruct (calls cls T v1 xs w1) as [[r' v'] w'].
    rewrite insert_insert_eq. by destruct s.
Qed.

(** ** Before static initialisation *)

(** X11. A container default-constructed while [empty_oper] is still
    zero-initialised (before its dynamic initialiser has run) is bound to the
    null pointer: [is_empty] answers [true], but invoking or destroying the
    container dereferences the null pointer; once the initialiser has run,
    that container no longer reports [is_empty]. *)
Theorem default_container_before_static_init (w : W) a (args : Args) :
  ∃ s1 s2,
    default_ctor a (boot (V:=V) w) = Done tt s1 ∧
    tasks s1 !! a = Some {| buffer := None; oper_ptr := nullptr |} ∧
    is_empty a s1 = Done true s1 ∧
    invoke cls a args s1 = Undef ∧
    destroy cls a s1 = Undef ∧
    static_init s1 = Done tt s2 ∧
    is_empty a s2 = Done false s2.
Proof.
  eexists. eexists. split.
  { unfold default_ctor, bind, alloc, read_empty_oper, write_oper, boot; simpl.
    rewrite lookup_empty. simpl. rewrite lookup_insert_eq. reflexivity. }
  split; [simpl; apply lookup_insert_eq|].
  split; [mrun; done|]. split; [mrun; done|]. split; [mrun; done|].
  split; [reflexivity|]. mrun. done.
Qed.

End Composition.

(** ** What a statement leaves alone *)

Section Frame.
Context {V W Args R : Type}.
Variable cls : ty → payload_class V W Args R.
Variable P : state V W → state V W → Prop.
Variable allowed : addr → Prop.
Hypothesis P_refl : ∀ s, P s s.
Hypothesis P_trans : ∀ s1 s2 s3, P s1 s2 → P s2 s3 → P s1 s3.
Hypothesis P_world : ∀ s w, P s (set_world w s).
Hypothesis P_tmp : ∀ s x, P s (set_tmp x s).
Hypothesis P_insert :
  ∀ s a t, allowed a → P s (set_tasks (<[a := t]> (tasks s)) s).
Hypothesis P_delete :
  ∀ s a, allowed a → P s (set_tasks (delete a (tasks s)) s).
Hypothesis P_table :
  ∀ s x, P s (set_tables (<[x := table_of x]> (tables s)) s).

Lemma preserves_ret {A} (x : A) : preserves P (ret x).
Proof. intros s. apply P_refl. Qed.

Lemma preserves_throw {A} e : preserves P (throw (A:=A) e).
Proof. intros s. apply P_refl. Qed.

Lemma preserves_undef {A} : preserves P (undef (A:=A)).
Proof. by intros s. Qed.

Lemma preserves_bind {A B} (m : M A) (k : A → M B) :
  preserves P m → (∀ x, preserves P (k x)) → preserves P (bind m k).
Proof.
  intros Hm Hk s. unfold bind. specialize (Hm s).
  destruct (m s) as [x s1|e s1|]; [|done|done].
  specialize (Hk x s1). destruct (k x s1) as [y s2|e s2|]; eauto.
Qed.

Lemma preserves_load p : preserves P (load p).
Proof.
  intros s. unfold load. destruct p as [a|]; [|apply P_refl].
  destruct (tasks s !! a); [apply P_refl|done].
Qed.

Lemma preserves_store p x : allowed_ptr allowed p → preserves P (store p x).
Proof.
  intros Hp s. unfold store. destruct p as [a|]; [|apply P_tmp].
  destruct (tasks s !! a); [by apply P_insert|done].
Qed.

Lemma preserves_read_oper a : preserves P (read_oper a).
Proof.
  intros s. unfold read_oper. destruct (tasks s !! a) as [t|]; [|done].
  destruct (oper_ptr t); try done; apply P_refl.
Qed.

Lemma preserves_write_oper a p : allowed a → preserves P (write_oper a p).
Proof.
  intros Ha s. unfold write_oper.
  destruct (tasks s !! a); [by apply P_insert|done].
Qed.

Lemma preserves_read_empty_oper : preserves P read_empty_oper.
Proof. intros s. apply P_refl. Qed.

Lemma preserves_deref p : preserves P (deref p).
Proof.
  intros s. unfold deref. destruct p as [| |x]; try done.
  destruct (tables s !! x); [apply P_refl|done].
Qed.

Lemma preserves_alloc a : allowed a → preserves P (alloc a).
Proof.
  intros Ha s. unfold alloc. destruct (tasks s !! a); [done|by apply P_insert].
Qed.

Lemma preserves_dealloc a : allowed a → preserves P (dealloc a).
Proof.
  intros Ha s. unfold dealloc. destruct (tasks s !! a); [by apply P_delete|done].
Qed.

Lemma preserves_live_at Func p : preserves P (live_at Func p).
Proof.
  unfold live_at. apply preserves_bind; [apply preserves_load|].
  intros [o|]; [|apply preserves_undef].
  case_decide; [apply preserves_ret|apply preserves_undef].
Qed.

Lemma preserves_set_world (f : state V W → W) :
  preserves P (λ s, Done tt (set_world (f s) s)).
Proof. intros s. apply P_world. Qed.

Lemma preserves_get Func : preserves P (get Func).
Proof. intros s. apply (P_table s (func_tbl Func)). Qed.

Lemma preserves_run_call f src (args : Args) :
  allowed_ptr allowed src → preserves P (run_call cls f src args).
Proof.
  intros Hsrc. destruct f as [| |Func]; simpl.
  - apply preserves_undef.
  - apply preserves_throw.
  - apply preserves_bind; [apply preserves_live_at|]. intros v s.
    destruct (p_call (cls Func) v args (world s)) as [[r v'] w'].
    pose proof (preserves_store src
      (Some {| o_class := class_of Func; o_val := v' |}) Hsrc (set_world w' s))
      as Hst.
    destruct (store src _ (set_world w' s)) as [[] s1|e s1|]; try done.
    assert (P s s1) by (eapply P_trans; [apply P_world|exact Hst]).
    by destruct r.
Qed.

Lemma preserves_run_move f src dest :
  allowed_ptr allowed src → allowed_ptr allowed dest →
  preserves P (run_move cls f src dest).
Proof.
  intros Hsrc Hdest. destruct f as [| |Func]; simpl.
  - apply preserves_undef.
  - apply preserves_ret.
  - case_decide; [apply preserves_undef|].
    apply preserves_bind; [apply preserves_live_at|]. intros v.
    apply preserves_bind; [by apply preserves_store|]. intros _.
    apply preserves_bind; [by apply preserves_store|]. intros _.
    apply preserves_bind; [apply preserves_live_at|]. intros h.
    apply preserves_bind; [|intros _; by apply preserves_store].
    apply (preserves_set_world (λ s, p_dtor (cls Func) h (world s))).
Qed.

Lemma preserves_run_dtor f src :
  allowed_ptr allowed src → preserves P (run_dtor cls f src).
Proof.
  intros Hsrc. destruct f as [| |Func]; simpl.
  - apply preserves_undef.
  - apply preserves_ret.
  - apply preserves_bind; [apply preserves_live_at|]. intros v.
    apply preserves_bind; [|intros _; by apply preserves_store].
    apply (preserves_set_world (λ s, p_dtor (cls Func) v (world s))).
Qed.

(** A statement relates the states by [P] when [P] admits a change to every
    container it names. *)
Lemma preserves_exec (o : op) :
  (∀ a, a ∈ names o → allowed a) → preserves P (exec cls o).
Proof.
  intros Hn. destruct o as [a|a T v|a b|a b|a b|a args|a|a]; simpl in *.
  - pose proof (Hn a ltac:(set_solver)) as Ha.
    apply preserves_bind; [by apply preserves_alloc|]. intros _.
    apply preserves_bind; [apply preserves_read_empty_oper|]. intros e.
    by apply preserves_write_oper.
  - pose proof (Hn a ltac:(set_solver)) as Ha.
    apply preserves_bind; [by apply preserves_alloc|]. intros _.
    apply preserves_bind; [by apply preserves_store|]. intros _.
    apply preserves_bind; [apply preserves_get|]. intros p.
    by apply preserves_write_oper.
  - pose proof (Hn a ltac:(set_solver)) as Ha.
    pose proof (Hn b ltac:(set_solver)) as Hb.
    apply preserves_bind; [by apply preserves_alloc|]. intros _.
    apply preserves_bind; [apply preserves_read_oper|]. intros p.
    apply preserves_bind; [by apply preserves_write_oper|]. intros _.
    apply preserves_bind; [apply preserves_read_empty_oper|]. intros e.
    apply preserves_bind; [by apply preserves_write_oper|]. intros _.
    apply preserves_bind; [apply preserves_read_oper|]. intros q.
    apply preserves_bind; [apply preserves_deref|]. intros t.
    by apply preserves_run_move.
  - pose proof (Hn a ltac:(set_solver)) as Ha.
    pose proof (Hn b ltac:(set_solver)) as Hb.
    apply preserves_bind; [apply preserves_read_oper|]. intros p.
    apply preserves_bind; [apply preserves_deref|]. intros t.
    apply preserves_bind; [by apply preserves_run_dtor|]. intros _.
    apply preserves_bind; [apply preserves_read_oper|]. intros p'.
    apply preserves_bind; [by apply preserves_write_oper|]. intros _.
    apply preserves_bind; [apply preserves_read_empty_oper|]. intros e.
    apply preserves_bind; [by apply preserves_write_oper|]. intros _.
    apply preserves_bind; [apply preserves_read_oper|]. intros q.
    apply preserves_bind; [apply preserves_deref|]. intros u.
    by apply preserves_run_move.
  - pose proof (Hn a ltac:(set_solver)) as Ha.
    pose proof (Hn b ltac:(set_solver)) as Hb.
    unfold swap. case_decide; [apply preserves_ret|].
    apply preserves_bind; [by apply preserves_store|]. intros _.
    apply preserves_bind; [apply preserves_read_oper|]. intros p.
    apply preserves_bind; [apply preserves_deref|]. intros t.
    apply preserves_bind; [by apply preserves_run_move|]. intros _.
    apply preserves_bind; [apply preserves_read_oper|]. intros q.
    apply preserves_bind; [apply preserves_deref|]. intros u.
    apply preserves_bind; [by apply preserves_run_move|]. intros _.
    apply preserves_bind; [apply preserves_read_oper|]. intros p'.
    apply preserves_bind; [apply preserves_deref|]. intros t'.
    apply preserves_bind; [by apply preserves_run_move|]. intros _.
    apply preserves_bind; [apply preserves_read_oper|]. intros p''.
    apply preserves_bind; [apply preserves_read_oper|]. intros q''.
    apply preserves_bind; [by apply preserves_write_oper|]. intros _.
    by apply preserves_write_oper.
  - pose proof (Hn a ltac:(set_solver)) as Ha.
    apply preserves_bind; [|intros _; apply preserves_ret].
    apply preserves_bind; [apply preserves_read_oper|]. intros p.
    apply preserves_bind; [apply preserves_deref|]. intros t.
    by apply preserves_run_call.
  - pose proof (Hn a ltac:(set_solver)) as Ha.
    apply preserves_bind; [|intros _; apply preserves_ret].
    apply preserves_bind; [apply preserves_read_oper|]. intros p.
    apply preserves_bind; [apply preserves_read_empty_oper|]. intros e.
    apply preserves_ret.
  - pose proof (Hn a ltac:(set_solver)) as Ha.
    apply preserves_bind; [apply preserves_read_oper|]. intros p.
    apply preserves_bind; [apply preserves_deref|]. intros t.
    apply preserves_bind; [by apply preserves_run_dtor|]. intros _.
    by apply preserves_dealloc.
Qed.

End Frame.

Section FrameUses.
Context {V W Args R : Type}.
Variable cls : ty → payload_class V W Args R.
Implicit Types (s : state V W) (a b c : addr).

Lemma tables_ok_startup (w : W) : tables_ok (startup (V:=V) w).
Proof.
  unfold tables_ok, startup; simpl.
  apply map_Forall_insert_2; [done|apply map_Forall_empty].
Qed.

Lemma tables_kept_exec (o : op) : preserves tables_kept (exec cls o).
Proof.
  apply (preserves_exec cls tables_kept (λ _, True)).
  - by intros s Hs.
  - intros s1 s2 s3 H12 H23 Hs. destruct (H12 Hs) as [H2 Hsub].
    destruct (H23 H2) as [H3 Hsub']. split; [done|]. by etrans.
  - by intros s w Hs.
  - by intros s x Hs.
  - by intros s a t _ Hs.
  - by intros s a _ Hs.
  - intros s x Hs. split; simpl.
    + by apply map_Forall_insert_2.
    + destruct (tables s !! x) as [t|] eqn:Hx.
      * rewrite insert_id; [done|]. by rewrite (Hs x t Hx) in Hx.
      * by apply insert_subseteq.
  - done.
Qed.

(** X3. Dispatch tables are never changed once constructed: whatever a
    program does, normally or up to an exception, every table constructed
    before it is still there with the same members, and every table
    constructed meanwhile has the members its function assigns. *)
Theorem tables_are_immutable (l : list op) s :
  tables_ok s →
  match run cls l s with
  | Done _ s' | Thrown _ s' => tables_ok s' ∧ tables s ⊆ tables s'
  | Undef => True
  end.
Proof.
  revert s. induction l as [|o l IH]; intros s Hs; simpl; [done|].
  unfold bind. pose proof (tables_kept_exec o s) as Ho.
  destruct (exec cls o s) as [[] s1|e s1|]; [|by apply Ho|done].
  destruct (Ho Hs) as [H1 Hsub]. specialize (IH s1 H1).
  destruct (run cls l s1) as [[] s2|e s2|]; [| |done];
    (split; [apply IH|etrans; [exact Hsub|apply IH]]).
Qed.

(** X2. A statement never touches a container it does not name: whether it
    completes or throws, every other container (and every unused address) is
    as before, and so is [empty_oper]. *)
Theorem statement_leaves_other_containers (o : op) s c :
  c ∉ names o →
  match exec cls o s with
  | Done _ s' | Thrown _ s' =>
      tasks s' !! c = tasks s !! c ∧ empty_oper s' = empty_oper s
  | Undef => True
  end.
Proof.
  intros Hc.
  apply (preserves_exec cls (untouched c) (λ a, a ≠ c)); unfold untouched.
  - done.
  - intros s1 s2 s3 [H12 E12] [H23 E23]. split; congruence.
  - done.
  - done.
  - intros s1 a t Ha. simpl. by rewrite lookup_insert_ne.
  - intros s1 a Ha. simpl. by rewrite lookup_delete_ne.
  - done.
  - intros a Ha ->. done.
Qed.

End FrameUses.

(** ** Instances of the further properties *)

Lemma admissible_program_is_defined_witness :
  wf doubling_closures ∧
  safe_run closure_cls [MoveCtor 1 0; Invoke 1 tt; Swap 1 2; Destroy 0]
    doubling_closures ∧
  run closure_cls [MoveCtor 1 0; Invoke 1 tt; Swap 1 2; Destroy 0]
    doubling_closures ≠ Undef.
Proof.
  assert (wf doubling_closures) as Hwf by compute_done.
  assert (safe_run closure_cls
            [@MoveCtor nat unit 1 0; Invoke 1 tt; Swap 1 2; Destroy 0]
            doubling_closures) as Hsafe
    by (vm_compute; repeat split; eauto).
  split; [exact Hwf|]. split; [exact Hsafe|].
  exact (admissible_program_is_defined closure_cls _ _ Hwf Hsafe).
Defined.

Lemma statement_leaves_other_containers_witness :
  (2 ∉ names (@MoveAssign nat unit 3 0)) ∧
  (match exec closure_cls (MoveAssign 3 0) doubling_closures with
   | Done _ s' | Thrown _ s' =>
       tasks s' !! 2 = tasks doubling_closures !! 2 ∧
       empty_oper s' = empty_oper doubling_closures
   | Undef => True
   end).
Proof.
  assert (2 ∉ names (@MoveAssign nat unit 3 0)) as Hc by compute_done.
  split; [exact Hc|].
  exact (statement_leaves_other_containers closure_cls (MoveAssign 3 0)
           doubling_closures 2 Hc).
Defined.

Lemma tables_are_immutable_witness :
  tables_ok (startup (V:=nat) ([] : list event)) ∧
  (match run closure_cls [Construct 0 (Plain 0) 5; MoveCtor 1 0; Invoke 1 tt]
           (startup []) with
   | Done _ s' | Thrown _ s' =>
       tables_ok s' ∧ tables (startup (V:=nat) ([] : list event)) ⊆ tables s'
   | Undef => True
   end).
Proof.
  assert (tables_ok (startup (V:=nat) ([] : list event))) as Hok
    by (apply map_Forall_insert_2; [reflexivity|apply map_Forall_empty]).
  split; [exact Hok|].
  exact (tables_are_immutable closure_cls
           [Construct 0 (Plain 0) 5; MoveCtor 1 0; Invoke 1 tt] _ Hok).
Defined.

Lemma swap_twice_restores_witness :
  wf two_closures ∧ 0 ≠ 1 ∧
  tasks two_closures !! 0 = Some (full_task (Plain 1) 1) ∧
  tasks two_closures !! 1 = Some (full_task (Plain 2) 2) ∧
  ∃ s1 s2, swap const_cls 0 1 two_closures = Done tt s1 ∧
           swap const_cls 0 1 s1 = Done tt s2 ∧
           tasks s2 = tasks two_closures.
Proof.
  assert (wf two_closures) as Hwf by compute_done.
  assert (0 ≠ 1) as Hne by lia.
  assert (tasks two_closures !! 0 = Some (full_task (Plain 1) 1)) as Ha
    by reflexivity.
  assert (tasks two_closures !! 1 = Some (full_task (Plain 2) 2)) as Hb
    by reflexivity.
  split; [exact Hwf|]. split; [exact Hne|]. split; [exact Ha|].
  split; [exact Hb|].
  destruct (swap_twice_restores const_cls two_closures 0 1 _ _ Hwf Hne Ha Hb)
    as (s1 & s2 & H1 & H2 & Ht & _).
  exists s1, s2. split; [exact H1|]. split; [exact H2|exact Ht].
Defined.

Lemma swap_operands_commute_witness :
  wf two_closures ∧ 0 ≠ 1 ∧
  tasks two_closures !! 0 = Some (full_task (Plain 1) 1) ∧
  tasks two_closures !! 1 = Some (full_task (Plain 2) 2) ∧
  ∃ s1 s2, swap const_cls 0 1 two_closures = Done tt s1 ∧
           swap const_cls 1 0 two_closures = Done tt s2 ∧
           tasks s1 = tasks s2 ∧
           world s1 = [ev_dtor 1 1; ev_dtor 2 2; ev_dtor 1 1] ∧
           world s2 = [ev_dtor 2 2; ev_dtor 1 1; ev_dtor 2 2].
Proof.
  assert (wf two_closures) as Hwf by compute_done.
  assert (0 ≠ 1) as Hne by lia.
  assert (tasks two_closures !! 0 = Some (full_task (Plain 1) 1)) as Ha
    by reflexivity.
  assert (tasks two_closures !! 1 = Some (full_task (Plain 2) 2)) as Hb
    by reflexivity.
  split; [exact Hwf|]. split; [exact Hne|]. split; [exact Ha|].
  split; [exact Hb|].
  destruct (swap_operands_commute const_cls two_closures 0 1 _ _ Hwf Hne Ha Hb)
    as (s1 & s2 & H1 & H2 & Ht & _ & Hw1 & Hw2).
  exists s1, s2. split; [exact H1|]. split; [exact H2|]. split; [exact Ht|].
  split; [exact Hw1|exact Hw2].
Defined.

Lemma move_there_and_back_witness :
  wf doubling_closures ∧
  tasks doubling_closures !! 0 = Some (full_task (Plain 0) 5) ∧
  tasks doubling_closures !! 1 = None ∧
  ∃ s1 s2 s3,
    move_ctor closure_cls 1 0 doubling_closures = Done tt s1 ∧
    move_assign closure_cls 0 1 s1 = Done tt s2 ∧
    destroy closure_cls 1 s2 = Done tt s3 ∧
    tasks s3 = tasks doubling_closures ∧
    world s3 = [ev_dtor 0 5; ev_dtor 0 5].
Proof.
  assert (wf doubling_closures) as Hwf by compute_done.
  assert (tasks doubling_closures !! 0 = Some (full_task (Plain 0) 5)) as Ha
    by reflexivity.
  assert (tasks doubling_closures !! 1 = None) as Hb by reflexivity.
  split; [exact Hwf|]. split; [exact Ha|]. split; [exact Hb|].
  destruct (move_there_and_back closure_cls doubling_closures 0 1 _ Hwf Ha Hb)
    as (s1 & s2 & s3 & H1 & H2 & H3 & Ht & _ & Hw).
  exists s1, s2, s3. split; [exact H1|]. split; [exact H2|].
  split; [exact H3|]. split; [exact Ht|exact Hw].
Defined.

Lemma invocations_thread_payload_state_witness :
  tables doubling_closures !! func_tbl (Plain 0) = Some (func_table (Plain 0)) ∧
  tasks doubling_closures !! 0 = Some (full_task (Plain 0) 5) ∧
  ∃ s', run closure_cls (map (Invoke 0) [tt; tt]) doubling_closures = Done tt s' ∧
        world s' = [ev_call 0 5; ev_call 0 5].
Proof.
  assert (tables doubling_closures !! func_tbl (Plain 0)
          = Some (func_table (Plain 0))) as HT by reflexivity.
  assert (tasks doubling_closures !! 0 = Some (full_task (Plain 0) 5)) as Ha
    by reflexivity.
  split; [exact HT|]. split; [exact Ha|].
  eexists. split.
  - exact (invocations_thread_payload_state closure_cls [tt; tt]
             doubling_closures 0 (Plain 0) 5 HT Ha).
  - reflexivity.
Defined.

Lemma construct_then_destroy_witness :
  wf doubling_closures ∧ tasks doubling_closures !! 1 = None ∧
  ∃ s1 s2,
    construct 1 (Plain 0) 9 doubling_closures = Done tt s1 ∧
    destroy closure_cls 1 s1 = Done tt s2 ∧
    tasks s2 = tasks doubling_closures ∧
    world s2 = [ev_dtor 0 9].
Proof.
  assert (wf doubling_closures) as Hwf by compute_done.
  assert (tasks doubling_closures !! 1 = None) as Ha by reflexivity.
  split; [exact Hwf|]. split; [exact Ha|].
  destruct (construct_then_destroy closure_cls doubling_closures 1 (Plain 0) 9
              Hwf Ha) as (s1 & s2 & H1 & H2 & Ht & Hw & _).
  exists s1, s2. split; [exact H1|]. split; [exact H2|].
  split; [exact Ht|exact Hw].
Defined.

Lemma same_argument_type_shares_table_witness :
  0 ≠ 1 ∧ tasks (startup (V:=nat) ([] : list event)) !! 0 = None ∧
  tasks (startup (V:=nat) ([] : list event)) !! 1 = None ∧
  ∃ s1 s2 ta tb,
    construct 0 (Const 0) 5 (startup ([] : list event)) = Done tt s1 ∧
    construct 1 (Const 0) 6 s1 = Done tt s2 ∧
    tasks s2 !! 0 = Some ta ∧ tasks s2 !! 1 = Some tb ∧
    oper_ptr ta = oper_ptr tb.
Proof.
  assert (0 ≠ 1) as Hne by lia.
  split; [exact Hne|]. split; [reflexivity|]. split; [reflexivity|].
  destruct (same_argument_type_shares_table (W:=list event)
              (startup []) 0 1 (Const 0) 5 6 Hne eq_refl eq_refl)
    as (s1 & s2 & ta & tb & H1 & H2 & Ha & Hb & _ & Heq & _).
  exists s1, s2, ta, tb. repeat split; assumption.
Defined.

Lemma is_empty_iff_vacant_witness :
  wf doubling_closures ∧
  tasks doubling_closures !! 3 = Some empty_task ∧
  ∃ r, is_empty 3 doubling_closures = Done r doubling_closures ∧
       (r = true ↔ buffer (empty_task (V:=nat)) = None).
Proof.
  assert (wf doubling_closures) as Hwf by compute_done.
  assert (tasks doubling_closures !! 3 = Some empty_task) as Ha by reflexivity.
  split; [exact Hwf|]. split; [exact Ha|].
  exact (is_empty_iff_vacant doubling_closures 3 _ Hwf Ha).
Defined.
